(** * Span recovery for unknown-token placeholders (uie/extraction/predict_parser/utils.py)

    A shallow embedding of [fix_unk_from_text] and its helpers, together
    with the fragment of Python's [str] and [re] behaviour the functions
    rely on.  Strings are sequences of Unicode code points, Python integers
    are [Z], dictionaries are [gmap]s, and a call that may raise yields an
    [outcome]. *)

From Stdlib Require Import ZArith NArith Lia Ascii String List Bool.
From stdpp Require Import base list gmap.

Local Open Scope N_scope.
Local Open Scope list_scope.

(** ** Python values *)

(** A character is a Unicode code point; a [str] is a list of them. *)
Abbreviation char := N (only parsing).
Abbreviation str := (list N) (only parsing).

(** Exceptions the modelled code can raise. *)
Inductive exn :=
| re_error
| ValueError
| OverflowError
| KeyError
| IndexError.

(** Result of running a piece of Python: a value, a raised exception, or
    [OutOfModel] when the run would depend on a part of the regular
    expression library that is not modelled here (look-around and other
    [(?...)] extensions, possessive quantifiers, and the escapes whose
    meaning depends on the Unicode character database: [\d \D \w \W \b \B
    \N]). *)
Inductive outcome (A : Type) :=
| Ok (a : A)
| Raise (e : exn)
| OutOfModel.
Arguments Ok {A} a.
Arguments Raise {A} e.
Arguments OutOfModel {A}.

Definition bind {A B} (x : outcome A) (f : A -> outcome B) : outcome B :=
  match x with
  | Ok a => f a
  | Raise e => Raise e
  | OutOfModel => OutOfModel
  end.

Notation "'let*' x ':=' e 'in' k" := (bind e (fun x => k))
  (at level 10, x pattern, e at level 200, k at level 200, only parsing).

(** [[f(x) for x in l]] where [f] may raise: evaluation is left to right and
    stops at the first exception. *)
Fixpoint mapM {A B} (f : A -> outcome B) (l : list A) : outcome (list B) :=
  match l with
  | [] => Ok []
  | x :: l' => let* y := f x in let* ys := mapM f l' in Ok (y :: ys)
  end.

(** ** String literals

    Rocq string literals are byte strings; [py] reads one as UTF-8 and
    yields its code points, so that the source's literals can be written as
    they appear there. *)
Fixpoint utf8_decode (s : string) (need : nat) (acc : N) : str :=
  match s with
  | EmptyString => []
  | String a s' =>
      let b := N_of_ascii a in
      match need with
      | O => if b <? 128 then b :: utf8_decode s' 0 0
             else if b <? 224 then utf8_decode s' 1 (b - 192)
             else if b <? 240 then utf8_decode s' 2 (b - 224)
             else utf8_decode s' 3 (b - 240)
      | S O => (acc * 64 + (b - 128)) :: utf8_decode s' 0 0
      | S n => utf8_decode s' n (acc * 64 + (b - 128))
      end
  end.

Definition py (s : string) : str := utf8_decode s 0 0.

Module Py.

(** *** Whitespace: [str.isspace] on one character, which is also the
    [\s] category of [re] on [str] patterns. *)
Definition isspace (c : char) : bool :=
  ((9 <=? c) && (c <=? 13)) || ((28 <=? c) && (c <=? 32))
  || (c =? 133) || (c =? 160) || (c =? 5760)
  || ((8192 <=? c) && (c <=? 8202))
  || (c =? 8232) || (c =? 8233) || (c =? 8239) || (c =? 8287) || (c =? 12288).

(** *** [s.strip()] *)
Fixpoint lstrip (s : str) : str :=
  match s with
  | c :: s' => if isspace c then lstrip s' else s
  | [] => []
  end.
Definition rstrip (s : str) : str := rev (lstrip (rev s)).
Definition strip (s : str) : str := rstrip (lstrip s).

(** *** [s.startswith(p)] *)
Fixpoint startswith (p s : str) : bool :=
  match p, s with
  | [], _ => true
  | a :: p', b :: s' => (a =? b) && startswith p' s'
  | _ :: _, [] => false
  end.

(** *** [s.find(sub)]: lowest index where [sub] occurs, else -1. *)
Fixpoint find_from (sub s : str) (i : Z) : Z :=
  if startswith sub s then i
  else match s with
       | [] => (-1)%Z
       | _ :: s' => find_from sub s' (i + 1)%Z
       end.
Definition find (s sub : str) : Z := find_from sub s 0%Z.

(** *** [sub in s] *)
Definition contains (sub s : str) : bool := negb (find s sub =? -1)%Z.

(** *** [s.split(sep)]: the pieces between the non-overlapping occurrences
    of [sep], scanning left to right; an empty separator raises
    [ValueError].  [skip] counts the characters of a separator occurrence
    still to be passed over and [cur] holds the current piece, reversed. *)
Fixpoint split_go (sep s : str) (skip : nat) (cur : str) : list str :=
  match s with
  | [] => [rev cur]
  | c :: s' =>
      match skip with
      | S n => split_go sep s' n cur
      | O => if startswith sep s
             then rev cur :: split_go sep s' (Nat.pred (length sep)) []
             else split_go sep s' 0 (c :: cur)
      end
  end.
Definition split (s sep : str) : outcome (list str) :=
  match sep with
  | [] => Raise ValueError
  | _ => Ok (split_go sep s 0 [])
  end.

(** *** [sep.join(l)] *)
Fixpoint join (sep : str) (l : list str) : str :=
  match l with
  | [] => []
  | [x] => x
  | x :: l' => x ++ sep ++ join sep l'
  end.

(** *** [s.replace(old, new)] *)
Definition replace (s old new : str) : str :=
  match old with
  | [] => new ++ flat_map (fun c => c :: new) s
  | _ => join new (split_go old s 0 [])
  end.

(** *** [l[i]] with Python's negative indices; out of range raises
    [IndexError]. *)
Definition getitem {A} (l : list A) (i : Z) : outcome A :=
  let n := Z.of_nat (length l) in
  let j := (if i <? 0 then i + n else i)%Z in
  if (j <? 0)%Z then Raise IndexError
  else match nth_error l (Z.to_nat j) with
       | Some x => Ok x
       | None => Raise IndexError
       end.

(** *** [s[a:b]]: negative bounds count from the end, and both are clamped
    to the string. *)
Definition clamp (n i : Z) : Z :=
  let j := (if i <? 0 then i + n else i)%Z in
  (if j <? 0 then 0 else if n <? j then n else j)%Z.
Definition slice {A} (s : list A) (a b : Z) : list A :=
  let n := Z.of_nat (length s) in
  let a' := Z.to_nat (clamp n a) in
  let b' := Z.to_nat (clamp n b) in
  firstn (b' - a') (skipn a' s).

End Py.

(** ** The regular expression library [re]

    Patterns are parsed the way CPython's [re._parser] does it and matched
    by a backtracking matcher in continuation-passing style that follows
    the priority order of the [sre] engine. *)
Module Re.

Definition ch (a : ascii) : char := N_of_ascii a.
Definition char_in (c : char) (s : string) : bool := existsb (N.eqb c) (py s).

(** *** Parsed patterns *)

Inductive category := CATEGORY_SPACE | CATEGORY_NOT_SPACE.

Inductive set_item :=
| SET_LITERAL (c : char)
| SET_RANGE (lo hi : char)
| SET_CATEGORY (k : category).

Inductive at_code :=
| AT_BEGINNING
| AT_END
| AT_BEGINNING_STRING
| AT_END_STRING.

(** A sub-pattern ([SubPattern], a list of items in the library) is a
    right-nested [Cat] ending in [Empty]; a [BRANCH] over several
    alternatives is right-nested as well.  [hi = None] is [MAXREPEAT]. *)
Inductive regex :=
| Empty
| LITERAL (c : char)
| ANY
| IN (negate : bool) (items : list set_item)
| AT (a : at_code)
| Cat (r1 r2 : regex)
| BRANCH (r1 r2 : regex)
| REPEAT (greedy : bool) (lo : N) (hi : option N) (r : regex)
| SUBPATTERN (gid : nat) (r : regex)
| GROUPREF (gid : nat).

Definition seq_of (items : list regex) : regex := foldr Cat Empty items.

Fixpoint branch_of (alts : list regex) : regex :=
  match alts with
  | [] => Empty
  | [r] => r
  | r :: alts' => BRANCH r (branch_of alts')
  end.

(** *** The tokenizer ([Tokenizer]): one token of look-ahead, a backslash
    taking the next character with it; a backslash that ends the pattern
    is an error as soon as it becomes the look-ahead. *)
Inductive token := Chr (c : char) | Esc (c : char).

Record source := { next : option token; rest : str }.

Definition tokenizer_next (s : str) : outcome source :=
  match s with
  | [] => Ok {| next := None; rest := [] |}
  | c :: s' =>
      if c =? ch "\" then
        match s' with
        | [] => Raise re_error
        | d :: s'' => Ok {| next := Some (Esc d); rest := s'' |}
        end
      else Ok {| next := Some (Chr c); rest := s' |}
  end.

Definition Tokenizer (s : str) : outcome source := tokenizer_next s.

(** [source.get()], seen from the caller that already read [source.next]. *)
Definition sourceget (src : source) : outcome source := tokenizer_next (rest src).

Definition next_is (c : char) (src : source) : bool :=
  match next src with
  | Some (Chr d) => d =? c
  | _ => false
  end.

(** [source.match(c)] *)
Definition sourcematch (c : char) (src : source) : outcome (bool * source) :=
  if next_is c src then let* src' := sourceget src in Ok (true, src')
  else Ok (false, src).

(** [source.getwhile(n, charset)] *)
Fixpoint getwhile (n : nat) (charset : char -> bool) (src : source)
  : outcome (str * source) :=
  match n with
  | O => Ok ([], src)
  | S n' =>
      match next src with
      | Some (Chr c) =>
          if charset c then
            let* src1 := sourceget src in
            let* (r, src2) := getwhile n' charset src1 in
            Ok (c :: r, src2)
          else Ok ([], src)
      | _ => Ok ([], src)
      end
  end.

Definition isdigit (c : char) : bool := (48 <=? c) && (c <=? 57).
Definition isoctdigit (c : char) : bool := (48 <=? c) && (c <=? 55).
Definition ishexdigit (c : char) : bool :=
  isdigit c || ((97 <=? c) && (c <=? 102)) || ((65 <=? c) && (c <=? 70)).
Definition isasciiletter (c : char) : bool :=
  ((97 <=? c) && (c <=? 122)) || ((65 <=? c) && (c <=? 90)).

Definition digit_value (c : char) : N :=
  if isdigit c then c - 48
  else if 97 <=? c then c - 87
  else c - 55.

(** [int(digits, base)] on a string of digits of that base. *)
Definition int_of (base : N) (digits : str) : N :=
  fold_left (fun acc d => acc * base + digit_value d) digits 0.

(** The table [ESCAPES]. *)
Definition ESCAPES (c : char) : option char :=
  if c =? ch "a" then Some 7
  else if c =? ch "b" then Some 8
  else if c =? ch "f" then Some 12
  else if c =? ch "n" then Some 10
  else if c =? ch "r" then Some 13
  else if c =? ch "t" then Some 9
  else if c =? ch "v" then Some 11
  else if c =? ch "\" then Some 92
  else None.

(** The parser state ([State]): the number of groups opened so far, group 0
    included, and the groups already closed. *)
Record pstate := { groups : nat; closed : list nat }.

Definition opengroup (st : pstate) : pstate :=
  {| groups := S (groups st); closed := closed st |}.
Definition closegroup (gid : nat) (st : pstate) : pstate :=
  {| groups := groups st; closed := gid :: closed st |}.
Definition checkgroup (gid : nat) (st : pstate) : bool :=
  (gid <? groups st)%nat && existsb (Nat.eqb gid) (closed st).

(** The escapes that are the same inside and outside a character set:
    [\x], [\u], [\U] and [\N]. *)
Definition numeric_escape (src : source) (c : char) : option (outcome (char * source)) :=
  let hex n :=
    let* (ds, src1) := getwhile n ishexdigit src in
    if (length ds =? n)%nat then
      let v := int_of 16 ds in
      if 1114111 <? v then Raise re_error else Ok (v, src1)
    else Raise re_error in
  if c =? ch "x" then Some (hex 2%nat)
  else if c =? ch "u" then Some (hex 4%nat)
  else if c =? ch "U" then Some (hex 8%nat)
  else if c =? ch "N" then
    Some (if next_is (ch "{") src then OutOfModel else Raise re_error)
  else None.

(** [_class_escape]: an escape inside a character set. *)
Definition _class_escape (src : source) (c : char) : outcome (set_item * source) :=
  match ESCAPES c with
  | Some v => Ok (SET_LITERAL v, src)
  | None =>
  if c =? ch "s" then Ok (SET_CATEGORY CATEGORY_SPACE, src)
  else if c =? ch "S" then Ok (SET_CATEGORY CATEGORY_NOT_SPACE, src)
  else if char_in c "dDwW" then OutOfModel
  else match numeric_escape src c with
  | Some r => let* (v, src1) := r in Ok (SET_LITERAL v, src1)
  | None =>
  if isoctdigit c then
    let* (ds, src1) := getwhile 2 isoctdigit src in
    let v := int_of 8 (c :: ds) in
    if 255 <? v then Raise re_error else Ok (SET_LITERAL v, src1)
  else if isdigit c then Raise re_error
  else if isasciiletter c then Raise re_error
  else Ok (SET_LITERAL c, src)
  end end.

(** [_escape]: an escape outside a character set. *)
Definition _escape (src : source) (c : char) (st : pstate) : outcome (regex * source) :=
  if c =? ch "A" then Ok (AT AT_BEGINNING_STRING, src)
  else if c =? ch "Z" then Ok (AT AT_END_STRING, src)
  else if c =? ch "s" then Ok (IN false [SET_CATEGORY CATEGORY_SPACE], src)
  else if c =? ch "S" then Ok (IN false [SET_CATEGORY CATEGORY_NOT_SPACE], src)
  else if char_in c "bBdDwW" then OutOfModel
  else match ESCAPES c with
  | Some v => Ok (LITERAL v, src)
  | None =>
  match numeric_escape src c with
  | Some r => let* (v, src1) := r in Ok (LITERAL v, src1)
  | None =>
  if c =? ch "0" then
    let* (ds, src1) := getwhile 2 isoctdigit src in
    Ok (LITERAL (int_of 8 (c :: ds)), src1)
  else if isdigit c then
    let groupref ds src' :=
      let group := N.to_nat (int_of 10 ds) in
      if (group <? groups st)%nat then
        if checkgroup group st then Ok (GROUPREF group, src') else Raise re_error
      else Raise re_error in
    match next src with
    | Some (Chr d) =>
        if isdigit d then
          let* src1 := sourceget src in
          match next src1 with
          | Some (Chr e) =>
              if isoctdigit c && isoctdigit d && isoctdigit e then
                let* src2 := sourceget src1 in
                let v := int_of 8 [c; d; e] in
                if 255 <? v then Raise re_error else Ok (LITERAL v, src2)
              else groupref [c; d] src1
          | _ => groupref [c; d] src1
          end
        else groupref [c] src
    | _ => groupref [c] src
    end
  else if isasciiletter c then Raise re_error
  else Ok (LITERAL c, src)
  end end.

Definition MAXREPEAT : N := 4294967295.

Definition SPECIAL_CHARS : string := ".\[{()*+?^$|".
Definition REPEAT_CHARS : string := "*+?{".

(** The body of a character set, after the opening bracket and the
    optional [^]: the loop of [_parse] that reads up to the closing
    bracket.  Every turn but the last takes a token, so that the number of
    tokens left, plus one, is enough [fuel]. *)
Fixpoint parse_set (fuel : nat) (src : source) (set : list set_item)
  : outcome (list set_item * source) :=
  match fuel with
  | O => OutOfModel
  | S fuel' =>
      match next src with
      | None => Raise re_error
      | Some this =>
          let* src1 := sourceget src in
          let class_code t s :=
            match t with
            | Esc c => _class_escape s c
            | Chr c => Ok (SET_LITERAL c, s)
            end in
          match this, set with
          | Chr 93, _ :: _ => Ok (set, src1)
          | _, _ =>
              let* (code1, src2) := class_code this src1 in
              let* (range, src3) := sourcematch (ch "-") src2 in
              if range then
                match next src3 with
                | None => Raise re_error
                | Some that =>
                    let* src4 := sourceget src3 in
                    match that with
                    | Chr 93 => Ok (set ++ [code1; SET_LITERAL (ch "-")], src4)
                    | _ =>
                        let* (code2, src5) := class_code that src4 in
                        match code1, code2 with
                        | SET_LITERAL lo, SET_LITERAL hi =>
                            if hi <? lo then Raise re_error
                            else parse_set fuel' src5 (set ++ [SET_RANGE lo hi])
                        | _, _ => Raise re_error
                        end
                    end
                end
              else parse_set fuel' src3 (set ++ [code1])
          end
      end
  end.

(** The last item of a sub-pattern, with the items before it. *)
Definition unsnoc {A} (l : list A) : option (list A * A) :=
  match rev l with
  | [] => None
  | x :: l' => Some (rev l', x)
  end.

(** The bounds of a quantifier whose first character [this] was just
    read: [None] when an opening brace does not start a quantifier and
    stands for itself.  [int] refuses a string of more than 4300 digits
    with [ValueError]. *)
Definition repeat_bounds (this : char) (src : source)
  : outcome (option (N * option N * source)) :=
  if this =? ch "?" then Ok (Some (0, Some 1, src))
  else if this =? ch "*" then Ok (Some (0, None, src))
  else if this =? ch "+" then Ok (Some (1, None, src))
  else
    if next_is (ch "}") src then Ok None
    else
      let* (lo, src1) := getwhile (S (length (rest src))) isdigit src in
      let* (comma, src2) := sourcematch (ch ",") src1 in
      let* (hi, src3) :=
        (if comma then getwhile (S (length (rest src2))) isdigit src2
         else Ok (lo, src2)) in
      let* (close, src4) := sourcematch (ch "}") src3 in
      if negb close then Ok None
      else
        let* min :=
          (match lo with
           | [] => Ok 0
           | _ => if (4300 <? length lo)%nat then Raise ValueError
                  else if MAXREPEAT <=? int_of 10 lo then Raise OverflowError
                  else Ok (int_of 10 lo)
           end) in
        let* max :=
          (match hi with
           | [] => Ok None
           | _ => if (4300 <? length hi)%nat then Raise ValueError
                  else if MAXREPEAT <=? int_of 10 hi then Raise OverflowError
                  else if int_of 10 hi <? min then Raise re_error
                  else Ok (Some (int_of 10 hi))
           end) in
        Ok (Some (min, max, src4)).

(** [_parse] (the items of one alternative, accumulated in [sub]) and
    [_parse_sub] (the alternatives, accumulated in [alts]).  Two
    rewritings of the library that do not change what is matched are left
    out: a set of one literal stays a set, and the alternatives of a
    branch keep their common prefix.  The recursion runs on [fuel]; every
    call but the one from [_parse_sub] into [_parse] has consumed a token,
    so that twice the length of the pattern, plus two, is never used
    up. *)
Fixpoint _parse (fuel : nat) (src : source) (st : pstate) (sub : list regex)
  : outcome (list regex * source * pstate) :=
  match fuel with
  | O => OutOfModel
  | S fuel' =>
      match next src with
      | None => Ok (sub, src, st)
      | Some this =>
          if match this with Chr c => char_in c "|)" | Esc _ => false end
          then Ok (sub, src, st)
          else
            let* src1 := sourceget src in
            match this with
            | Esc c =>
                let* (code, src2) := _escape src1 c st in
                _parse fuel' src2 st (sub ++ [code])
            | Chr c =>
                if negb (char_in c SPECIAL_CHARS) then
                  _parse fuel' src1 st (sub ++ [LITERAL c])
                else if c =? ch "[" then
                  let* (negate, src2) := sourcematch (ch "^") src1 in
                  let* (set, src3) := parse_set (S (S (length (rest src2)))) src2 [] in
                  _parse fuel' src3 st (sub ++ [IN negate set])
                else if char_in c REPEAT_CHARS then
                  let* bounds := repeat_bounds c src1 in
                  match bounds with
                  | None => _parse fuel' src1 st (sub ++ [LITERAL c])
                  | Some (min, max, src2) =>
                      match unsnoc sub with
                      | None => Raise re_error
                      | Some (_, AT _) => Raise re_error
                      | Some (_, REPEAT _ _ _ _) => Raise re_error
                      | Some (before, item) =>
                          let* (lazy, src3) := sourcematch (ch "?") src2 in
                          if lazy then
                            _parse fuel' src3 st (before ++ [REPEAT false min max item])
                          else if next_is (ch "+") src3 then OutOfModel
                          else _parse fuel' src3 st (before ++ [REPEAT true min max item])
                      end
                  end
                else if c =? ch "." then _parse fuel' src1 st (sub ++ [ANY])
                else if c =? ch "(" then
                  if next_is (ch "?") src1 then OutOfModel
                  else
                    let group := groups st in
                    let* (p, src2, st2) := _parse_sub fuel' src1 (opengroup st) [] in
                    let* (close, src3) := sourcematch (ch ")") src2 in
                    if close then
                      _parse fuel' src3 (closegroup group st2) (sub ++ [SUBPATTERN group p])
                    else Raise re_error
                else if c =? ch "^" then _parse fuel' src1 st (sub ++ [AT AT_BEGINNING])
                else _parse fuel' src1 st (sub ++ [AT AT_END])
            end
      end
  end
with _parse_sub (fuel : nat) (src : source) (st : pstate) (alts : list regex)
  : outcome (regex * source * pstate) :=
  match fuel with
  | O => OutOfModel
  | S fuel' =>
      let* (sub, src1, st1) := _parse fuel' src st [] in
      let* (more, src2) := sourcematch (ch "|") src1 in
      if more then _parse_sub fuel' src2 st1 (alts ++ [seq_of sub])
      else Ok (branch_of (alts ++ [seq_of sub]), src2, st1)
  end.

(** A compiled pattern: the parsed expression and [pattern.groups]. *)
Record Pattern := { code : regex; ngroups : nat }.

(** [re.compile(pattern)] for a [str] pattern and no flags. *)
Definition compile (pattern : str) : outcome Pattern :=
  let* src := Tokenizer pattern in
  let* (p, src1, st) :=
    _parse_sub (2 * length pattern + 2) src {| groups := 1; closed := [] |} [] in
  match next src1 with
  | None => Ok {| code := p; ngroups := Nat.pred (groups st) |}
  | Some _ => Raise re_error
  end.

(** *** Matching

    [caps] holds the group marks set so far, most recent first.  The
    matcher runs at position [i] of the subject, [w] being the subject from
    [i] on, and hands every way of matching, in priority order, to the
    continuation [k] until one of them succeeds. *)
Definition caps := list (nat * (nat * nat)).
Definition K := nat -> str -> caps -> option (nat * caps).

Fixpoint get_mark (g : nat) (c : caps) : option (nat * nat) :=
  match c with
  | [] => None
  | (g', m) :: c' => if (g =? g')%nat then Some m else get_mark g c'
  end.

Definition in_category (k : category) (c : char) : bool :=
  match k with
  | CATEGORY_SPACE => Py.isspace c
  | CATEGORY_NOT_SPACE => negb (Py.isspace c)
  end.

Definition in_item (it : set_item) (c : char) : bool :=
  match it with
  | SET_LITERAL a => c =? a
  | SET_RANGE lo hi => (lo <=? c) && (c <=? hi)
  | SET_CATEGORY k => in_category k c
  end.

Definition in_set (negate : bool) (items : list set_item) (c : char) : bool :=
  xorb negate (existsb (fun it => in_item it c) items).

Definition at_ok (a : at_code) (i : nat) (w : str) : bool :=
  match a with
  | AT_BEGINNING | AT_BEGINNING_STRING => (i =? 0)%nat
  | AT_END => match w with [] => true | [c] => c =? 10 | _ => false end
  | AT_END_STRING => match w with [] => true | _ => false end
  end.

Definition same_pos (last : option nat) (i : nat) : bool :=
  match last with
  | Some l => (l =? i)%nat
  | None => false
  end.

Section Repeat.
(** The two repeat loops of the engine over a [body] matcher:
    [count] iterations are done, and [last] is where the latest iteration
    beyond the minimum started (the engine's guard against iterating on
    an empty match for ever).  Beyond the minimum every iteration starts
    further right than the one before, so the loops are entered at most
    [lo + length w + 2] times; that is the [fuel] [sre_match] gives
    them. *)
Variable body : nat -> str -> caps -> K -> option (nat * caps).
Variable lo : nat.
Variable hi : option nat.

Definition below_max (count : nat) : bool :=
  match hi with
  | None => true
  | Some h => (count <? h)%nat
  end.

Fixpoint max_until (fuel count : nat) (last : option nat)
    (i : nat) (w : str) (c : caps) (k : K) : option (nat * caps) :=
  match fuel with
  | O => None
  | S fuel' =>
      if (count <? lo)%nat then
        body i w c (fun j w' c' => max_until fuel' (S count) last j w' c' k)
      else if below_max count && negb (same_pos last i) then
        match body i w c
                (fun j w' c' => max_until fuel' (S count) (Some i) j w' c' k) with
        | Some x => Some x
        | None => k i w c
        end
      else k i w c
  end.

Fixpoint min_until (fuel count : nat) (last : option nat)
    (i : nat) (w : str) (c : caps) (k : K) : option (nat * caps) :=
  match fuel with
  | O => None
  | S fuel' =>
      if (count <? lo)%nat then
        body i w c (fun j w' c' => min_until fuel' (S count) last j w' c' k)
      else
        match k i w c with
        | Some x => Some x
        | None =>
            if negb (below_max count) || same_pos last i then None
            else body i w c
                   (fun j w' c' => min_until fuel' (S count) (Some i) j w' c' k)
        end
  end.
End Repeat.

(** The characters of the subject [s] between two marks. *)
Definition between (s : str) (a b : nat) : str := firstn (b - a) (skipn a s).

Fixpoint sre_match (s : str) (r : regex) (i : nat) (w : str) (c : caps) (k : K)
  {struct r} : option (nat * caps) :=
  match r with
  | Empty => k i w c
  | LITERAL a =>
      match w with
      | x :: w' => if x =? a then k (S i) w' c else None
      | [] => None
      end
  | ANY =>
      match w with
      | x :: w' => if x =? 10 then None else k (S i) w' c
      | [] => None
      end
  | IN negate items =>
      match w with
      | x :: w' => if in_set negate items x then k (S i) w' c else None
      | [] => None
      end
  | AT a => if at_ok a i w then k i w c else None
  | Cat r1 r2 => sre_match s r1 i w c (fun j w' c' => sre_match s r2 j w' c' k)
  | BRANCH r1 r2 =>
      match sre_match s r1 i w c k with
      | Some x => Some x
      | None => sre_match s r2 i w c k
      end
  | REPEAT greedy lo hi r1 =>
      (if greedy then max_until else min_until)
        (sre_match s r1) (N.to_nat lo) (option_map N.to_nat hi)
        (N.to_nat lo + length w + 2)%nat 0%nat None i w c k
  | SUBPATTERN g r1 =>
      sre_match s r1 i w c (fun j w' c' => k j w' ((g, (i, j)) :: c'))
  | GROUPREF g =>
      match get_mark g c with
      | Some (a, b) =>
          let t := between s a b in
          if Py.startswith t w then k (i + length t)%nat (skipn (length t) w) c
          else None
      | None => None
      end
  end.

(** The search loop: the first position, from [p] on, at which the
    pattern matches.  With [must_advance] a match that is empty at [p] does
    not count. *)
Fixpoint scan (s : str) (r : regex) (must_advance : bool) (p : nat) (w : str)
  : option (nat * nat * caps) :=
  match sre_match s r p w []
          (fun j _ c => if must_advance && (j =? p)%nat then None else Some (j, c)) with
  | Some (j, c) => Some (p, j, c)
  | None =>
      match w with
      | [] => None
      | _ :: w' => scan s r false (S p) w'
      end
  end.

(** A match object: the subject and the marks of the whole match and of
    the groups. *)
Record Match := { m_string : str; m_start : nat; m_end : nat; m_marks : caps }.

(** [m.group()] *)
Definition group (m : Match) : str := between (m_string m) (m_start m) (m_end m).

(** [m.group(g)] for [g >= 1], an unmatched group giving [None]. *)
Definition group_n (m : Match) (g : nat) : option str :=
  match get_mark g (m_marks m) with
  | Some (a, b) => Some (between (m_string m) a b)
  | None => None
  end.

Definition search_from (p : Pattern) (s : str) (must_advance : bool) (start : nat)
  : option Match :=
  match scan s (code p) must_advance start (skipn start s) with
  | Some (b, e, c) => Some {| m_string := s; m_start := b; m_end := e; m_marks := c |}
  | None => None
  end.

(** [re.search(pattern, string)] *)
Definition search (pattern string : str) : outcome (option Match) :=
  let* p := compile pattern in
  Ok (search_from p string false 0).

(** *** Substitution *)

(** A parsed replacement template: literal pieces and group references. *)
Inductive piece := PLiteral (l : str) | PGroup (g : nat).

Definition isidentifier_ascii (name : str) : option bool :=
  match name with
  | [] => Some false
  | c :: name' =>
      if forallb (fun d => d <? 128) name then
        Some ((isasciiletter c || (c =? ch "_"))
              && forallb (fun d => isasciiletter d || isdigit d || (d =? ch "_")) name')
      else None
  end.

(** [source.getuntil(terminator, ...)]: the tokens up to the terminator. *)
Fixpoint getuntil (fuel : nat) (terminator : char) (src : source) (acc : str)
  : outcome (str * source) :=
  match fuel with
  | O => OutOfModel
  | S fuel' =>
      let* src1 := sourceget src in
      match next src with
      | None => Raise re_error
      | Some (Chr c) =>
          if c =? terminator then
            match acc with [] => Raise re_error | _ => Ok (acc, src1) end
          else getuntil fuel' terminator src1 (acc ++ [c])
      | Some (Esc c) => getuntil fuel' terminator src1 (acc ++ [ch "\"; c])
      end
  end.

(** [parse_template]: group references are written [\g<number>] or
    [\number]. *)
Fixpoint parse_template (fuel : nat) (src : source) (groups : nat)
  : outcome (list piece) :=
  match fuel with
  | O => OutOfModel
  | S fuel' =>
      match next src with
      | None => Ok []
      | Some this =>
          let* src1 := sourceget src in
          let addgroup index s :=
            if (groups <? index)%nat then Raise re_error
            else let* ps := parse_template fuel' s groups in Ok (PGroup index :: ps) in
          let literal l s :=
            let* ps := parse_template fuel' s groups in Ok (PLiteral l :: ps) in
          match this with
          | Chr c => literal [c] src1
          | Esc c =>
              if c =? ch "g" then
                let* (open, src2) := sourcematch (ch "<") src1 in
                if negb open then Raise re_error
                else
                  let* (name, src3) := getuntil (S (length (rest src2))) (ch ">") src2 [] in
                  match isidentifier_ascii name with
                  | None => OutOfModel
                  | Some true => Raise IndexError
                  | Some false =>
                      if forallb isdigit name then addgroup (N.to_nat (int_of 10 name)) src3
                      else OutOfModel
                  end
              else if c =? ch "0" then
                let* (ds, src2) := getwhile 2 isoctdigit src1 in
                literal [N.land (int_of 8 ds) 255] src2
              else if isdigit c then
                match next src1 with
                | Some (Chr d) =>
                    if isdigit d then
                      let* src2 := sourceget src1 in
                      match next src2 with
                      | Some (Chr e) =>
                          if isoctdigit c && isoctdigit d && isoctdigit e then
                            let* src3 := sourceget src2 in
                            let v := int_of 8 [c; d; e] in
                            if 255 <? v then Raise re_error else literal [v] src3
                          else addgroup (N.to_nat (int_of 10 [c; d])) src2
                      | _ => addgroup (N.to_nat (int_of 10 [c; d])) src2
                      end
                    else addgroup (N.to_nat (int_of 10 [c])) src1
                | _ => addgroup (N.to_nat (int_of 10 [c])) src1
                end
              else
                match ESCAPES c with
                | Some v => literal [v] src1
                | None => if isasciiletter c then Raise re_error
                          else literal [ch "\"; c] src1
                end
          end
      end
  end.

(** [expand_template] *)
Definition expand (template : list piece) (m : Match) : str :=
  flat_map (fun p => match p with
                     | PLiteral l => l
                     | PGroup O => group m
                     | PGroup g => default [] (group_n m g)
                     end) template.

(** The loop of [pattern.sub]: [i] is the end of the text copied so far,
    [start] where the next search begins. *)
Fixpoint sub_loop (fuel : nat) (p : Pattern) (template : list piece) (s : str)
    (i start : nat) (must_advance : bool) : str :=
  match fuel with
  | O => skipn i s
  | S fuel' =>
      match search_from p s must_advance start with
      | None => skipn i s
      | Some m =>
          between s i (m_start m) ++ expand template m
          ++ sub_loop fuel' p template s (m_end m) (m_end m)
               (m_end m =? m_start m)%nat
      end
  end.

(** [re.sub(pattern, repl, string)] for a [str] replacement. *)
Definition sub (pattern repl string : str) : outcome str :=
  let* p := compile pattern in
  let* template :=
    (if existsb (N.eqb (ch "\")) repl then
       let* src := Tokenizer repl in
       parse_template (S (length repl)) src (ngroups p)
     else Ok [PLiteral repl]) in
  Ok (sub_loop (2 * length string + 2) p template string 0 0 false).

End Re.

(** ** The tokenizer capability

    What the code uses of a tokenizer object: [tokenizer.vocab], a
    dictionary from token string to token id, given by its items in
    iteration order, and the call [tokenizer(text, ...)], which yields
    [input_ids] and [offset_mapping]. *)
Record tokenizer_capability := {
  vocab : list (str * Z);
  encode : str -> list Z * list (Z * Z)
}.

(** ** utils.py *)

(** The loop of [match_sublist]: the variables it updates. *)
Record decoded := {
  decoded_text : str;
  decoded_offset_mapping : list Z;
  offset : Z;
  tokens : list str
}.

Fixpoint decode_loop (the_list : list Z) (i : Z) (id2token : gmap Z (list N))
    (d : decoded) : outcome decoded :=
  match the_list with
  | [] => Ok d
  | tid :: the_list' =>
      match id2token !! tid with
      | None => Raise KeyError
      | Some t =>
          let token := Py.replace t (py "▁") [] in
          decode_loop the_list' (i + 1)%Z id2token
            {| decoded_text := decoded_text d ++ token;
               decoded_offset_mapping :=
                 decoded_offset_mapping d ++ map (fun _ => i) token;
               offset := (offset d + Z.of_nat (length token))%Z;
               tokens := tokens d ++ [token] |}
      end
  end.

Definition match_sublist (the_list : list Z) (to_match : str)
    (id2token : gmap Z (list N)) : outcome (option (list Z)) :=
  let* d := decode_loop the_list 0%Z id2token
              {| decoded_text := []; decoded_offset_mapping := [];
                 offset := 0%Z; tokens := [] |} in
  let index := Py.find (decoded_text d) to_match in
  if (index =? -1)%Z then Ok None
  else
    let* first := Py.getitem (decoded_offset_mapping d) index in
    let* last := Py.getitem (decoded_offset_mapping d)
                   (index + Z.of_nat (length to_match) - 1)%Z in
    Ok (Some [first; last]).

Definition clean_wildcard (x : str) : outcome str :=
  let sp := py ".*?()[]+" in
  Re.sub (py "(" ++ Py.join (py "|") (map (fun s => py "\" ++ [s]) sp) ++ py ")")
         (py "\\\g<1>") x.

Definition fix_unk_from_text_without_tokenizer (span text unk : str) : outcome str :=
  if negb (Py.contains unk span) then Ok span
  else
    let* items := Py.split span unk in
    let* cleaned := mapM (fun item => clean_wildcard (Py.strip item)) items in
    let match_ := Py.join (py "\s*\S+\s*") cleaned in
    let* result := Re.search match_ text in
    let* items := Py.split span unk in
    let* cleaned := mapM (fun item => clean_wildcard (rev (Py.strip item))) items in
    let match_reversed := Py.join (py "\s*\S+?\s*") (rev cleaned) in
    let* result_reversed := Re.search match_reversed (rev text) in
    match result_reversed with
    | None => Ok span
    | Some m => Ok (Py.strip (rev (Re.group m)))
    end.

Definition fix_unk_from_text_with_tokenizer (span text unk : str)
    (tokenizer : tokenizer_capability) : outcome str :=
  let id2token : gmap Z (list N) :=
    fold_left (fun m kv => <[kv.2 := kv.1]> m) (vocab tokenizer) ∅ in
  let (tokenized_text, offset_mapping) := encode tokenizer text in
  let* matched := match_sublist tokenized_text span id2token in
  match matched with
  | None | Some [] => fix_unk_from_text_without_tokenizer span text unk
  | Some matched =>
      let* m0 := Py.getitem matched 0 in
      let* o0 := Py.getitem offset_mapping m0 in
      let* m1 := Py.getitem matched (-1) in
      let* o1 := Py.getitem offset_mapping m1 in
      let true_offset := (o0.1, o1.2) in
      let fixed_span := Py.slice text true_offset.1 true_offset.2 in
      let* items := Py.split span unk in
      let* cleaned := mapM (fun item => clean_wildcard (Py.strip item)) items in
      let match_reversed := Py.join (py "\s*\S+\s*") cleaned in
      let* fixed_span := Re.search match_reversed fixed_span in
      match fixed_span with
      | None => Ok span
      | Some m => Ok (Py.strip (Re.group m))
      end
  end.

Definition fix_unk_from_text (span text unk : str)
    (tokenizer : option tokenizer_capability) : outcome str :=
  match tokenizer with
  | Some t => fix_unk_from_text_with_tokenizer span text unk t
  | None => fix_unk_from_text_without_tokenizer span text unk
  end.

(** The default placeholder of the source's signatures. *)
Definition default_unk : str := py "<unk>".

(** The table of [test_fix_unk_from_text]: span, text, expected result. *)
Definition span_text_list : list (str * str * str) :=
  [ (py "<unk> colo e Bengo",
     py "At 159 meters above sea level , Angola International Airport is located at Ícolo e Bengo , part of Luanda Province , in Angola .",
     py "Ícolo e Bengo");
    (py "<unk> colo e Bengo",
     py "Ícolo e Bengo , part of Luanda Province , in Angola .",
     py "Ícolo e Bengo");
    (py "Arr<unk> s negre",
     py "The main ingredients of Arròs negre , which is from Spain , are white rice , cuttlefish or squid , cephalopod ink , cubanelle and cubanelle peppers . Arròs negre is from the Catalonia region .",
     py "Arròs negre");
    (py "colo <unk>",
     py "At 159 meters above sea level , Angola International Airport is located at e Bengo , part of Luanda Province , in Angola . coloÍ",
     py "coloÍ");
    (py "Tarō As<unk>", py "The leader of Japan is Tarō Asō .", py "Tarō Asō");
    (py "Tar<unk> As<unk>", py "The leader of Japan is Tarō Asō .", py "Tarō Asō");
    (py "<unk>Tar As<unk>", py "The leader of Japan is ōTar Asō .", py "ōTar Asō");
    (py "Atatürk Monument ( <unk> zmir )",
     py "The Atatürk Monument ( İzmir ) can be found in Turkey .",
     py "Atatürk Monument ( İzmir )");
    (py "The Atatürk Monument [ <unk> zmir ]",
     py "The Atatürk Monument [ İzmir ] can be found in Turkey .",
     py "The Atatürk Monument [ İzmir ]") ].

(** The loop of [test_fix_unk_from_text]: every assertion holds. *)
Definition test_fix_unk_from_text : bool :=
  forallb (fun '(span, text, gold) =>
             match fix_unk_from_text span text default_unk None with
             | Ok r => if decide (r = gold) then true else false
             | _ => false
             end) span_text_list.

(** ** Notions used in the statements *)

(** [u] occurs in [t] as a contiguous run of characters. *)
Definition substring (u t : list N) : Prop := exists pre post, t = pre ++ u ++ post.

(** The pattern of line 114 (and of line 71): the trimmed, escaped
    fragments of the span joined by the greedy wildcard. *)
Definition forward_pattern (span unk : list N) : outcome (list N) :=
  let* items := Py.split span unk in
  let* cleaned := mapM (fun item => clean_wildcard (Py.strip item)) items in
  Ok (Py.join (py "\s*\S+\s*") cleaned).

(** The pattern of line 117: the fragments reversed, in reverse order,
    joined by the lazy wildcard. *)
Definition reverse_pattern (span unk : list N) : outcome (list N) :=
  let* items := Py.split span unk in
  let* cleaned := mapM (fun item => clean_wildcard (rev (Py.strip item))) items in
  Ok (Py.join (py "\s*\S+?\s*") (rev cleaned)).

(** The searches of lines 115 and 118. *)
Definition forward_search (span text unk : list N) : outcome (option Re.Match) :=
  let* p := forward_pattern span unk in Re.search p text.
Definition reverse_search (span text unk : list N) : outcome (option Re.Match) :=
  let* p := reverse_pattern span unk in Re.search p (rev text).

(** [fix_unk_from_text_without_tokenizer] with the forward search of
    lines 114-115 taken out. *)
Definition fix_unk_reverse_only (span text unk : list N) : outcome (list N) :=
  if negb (Py.contains unk span) then Ok span
  else
    let* items := Py.split span unk in
    let* cleaned := mapM (fun item => clean_wildcard (rev (Py.strip item))) items in
    let match_reversed := Py.join (py "\s*\S+?\s*") (rev cleaned) in
    let* result_reversed := Re.search match_reversed (rev text) in
    match result_reversed with
    | None => Ok span
    | Some m => Ok (Py.strip (rev (Re.group m)))
    end.

(** The dictionary comprehension of line 56. *)
Definition id2token_of (tokenizer : tokenizer_capability) : gmap Z (list N) :=
  fold_left (fun m kv => <[kv.2 := kv.1]> m) (vocab tokenizer) ∅.

(** A character-level tokenizer over printable ASCII: every character is a
    token whose id is its code point and whose offsets are its position. *)
Definition char_tokenizer : tokenizer_capability :=
  {| vocab := map (fun n => ([N.of_nat n], Z.of_nat n)) (seq 32 95);
     encode := fun text =>
       (map Z.of_N text,
        map (fun i => (Z.of_nat i, Z.of_nat (S i))) (seq 0 (length text))) |}.

(** The string the loop of [match_sublist] appends for the token at
    position [n] of the list. *)
Definition token_at (the_list : list Z) (id2token : gmap Z (list N)) (n : nat)
  : option (list N) :=
  match nth_error the_list n with
  | Some tid =>
      match id2token !! tid with
      | Some t => Some (Py.replace t (py "▁") [])
      | None => None
      end
  | None => None
  end.

(** The offset array built for a list of token strings numbered from [i]. *)
Fixpoint offsets_from (i : Z) (toks : list (list N)) : list Z :=
  match toks with
  | [] => []
  | t :: toks' => map (fun _ => i) t ++ offsets_from (i + 1)%Z toks'
  end.

(** A vocabulary in the style of a sentence-piece model, with the
    word-boundary marker on its own and in front of a token. *)
Definition sample_id2token : gmap Z (list N) :=
  <[0%Z := py "▁"]> (<[1%Z := py "▁a"]> (<[2%Z := py "b"]> ∅)).

(** [lang r u]: the string [u] is of the shape the expression [r]
    describes.  Anchors take no characters; what a back-reference takes
    depends on the marks and is left open. *)
Fixpoint lang (r : Re.regex) (u : list N) : Prop :=
  match r with
  | Re.Empty => u = []
  | Re.LITERAL c => u = [c]
  | Re.ANY => exists c, u = [c] /\ c <> 10
  | Re.IN negate items => exists c, u = [c] /\ Re.in_set negate items c = true
  | Re.AT _ => u = []
  | Re.Cat r1 r2 => exists u1 u2, u = u1 ++ u2 /\ lang r1 u1 /\ lang r2 u2
  | Re.BRANCH r1 r2 => lang r1 u \/ lang r2 u
  | Re.REPEAT _ lo _ r1 =>
      exists us, u = concat us /\ Forall (lang r1) us /\ (N.to_nat lo <= length us)%nat
  | Re.SUBPATTERN _ r1 => lang r1 u
  | Re.GROUPREF _ => True
  end.

(** A matcher is sound for a set of strings when every success hands the
    continuation the rest of the subject after one of these strings. *)
Definition sound_for (P : list N -> Prop)
    (m : nat -> list N -> Re.caps -> Re.K -> option (nat * Re.caps)) : Prop :=
  forall i w c k x,
    m i w c k = Some x ->
    exists u w' c', w = u ++ w' /\ P u /\ k (i + length u)%nat w' c' = Some x.

(** What a repeat loop that succeeded did: it took some strings of [P],
    at least [lo] of them together with the [count] taken before, and
    handed the rest to the continuation. *)
Definition repeat_result (P : list N -> Prop) (lo count i : nat) (w : list N)
    (k : Re.K) (x : nat * Re.caps) : Prop :=
  exists us w' c',
    w = concat us ++ w' /\ Forall P us /\ (lo <= count + length us)%nat
    /\ k (i + length (concat us))%nat w' c' = Some x.

(** What [\s] and [\S] parse to. *)
Definition SPACE : Re.regex := Re.IN false [Re.SET_CATEGORY Re.CATEGORY_SPACE].

Definition NOT_SPACE : Re.regex := Re.IN false [Re.SET_CATEGORY Re.CATEGORY_NOT_SPACE].

(** What [\s*\S+\s*] and [\s*\S+?\s*] parse to, in front of [tail]. *)
Definition connector (greedy : bool) (tail : Re.regex) : Re.regex :=
  Re.Cat (Re.REPEAT true 0 None SPACE)
    (Re.Cat (Re.REPEAT greedy 1 None NOT_SPACE)
       (Re.Cat (Re.REPEAT true 0 None SPACE) tail)).

(** Strings of whitespace, and strings without any. *)
Definition all_space (u : list N) : Prop := Forall (fun c => Py.isspace c = true) u.

Definition no_space (u : list N) : Prop := Forall (fun c => Py.isspace c = false) u.

(** What a wildcard stands for: optional whitespace, at least one
    character that is not whitespace, optional whitespace. *)
Definition is_gap (g : list N) : Prop :=
  exists a b c, g = a ++ b ++ c /\ all_space a /\ b <> [] /\ no_space b /\ all_space c.

(** The last character of the text that is not whitespace. *)
Fixpoint last_nonspace (text : list N) : option N :=
  match text with
  | [] => None
  | c :: text' =>
      match last_nonspace text' with
      | Some d => Some d
      | None => if Py.isspace c then None else Some c
      end
  end.

(** The characters of [sp]. *)
Definition special (c : N) : bool := Re.char_in c ".*?()[]+".

(** A backslash in front of every character of [sp]. *)
Definition escape_char (c : N) : list N := if special c then [92; c] else [c].

Definition escape (x : list N) : list N := flat_map escape_char x.

(** The compiled pattern and the parsed replacement of [clean_wildcard]. *)
Definition clean_pattern : Re.Pattern :=
  Eval vm_compute in
    match Re.compile (py "(" ++ Py.join (py "|") (map (fun s => py "\" ++ [s]) (py ".*?()[]+"))
                      ++ py ")") with
    | Ok p => p
    | _ => {| Re.code := Re.Empty; Re.ngroups := 0 |}
    end.

(** What the replacement parses to: a backslash, then group 1. *)
Definition clean_template : list Re.piece := [Re.PLiteral [92]; Re.PGroup 1].

(** The characters that are special to [re] and that [clean_wildcard]
    does not escape are the backslash, the caret, the dollar sign, the
    opening brace and the bar.  A fragment without them is [plain]: its
    escaped form parses to the sequence of its characters. *)
Definition plain_char (c : N) : bool := negb (Re.char_in c "\^${|").

Definition plain (f : list N) : Prop := Forall (fun c => plain_char c = true) f.

(** The look-ahead is not the suffix of a quantifier. *)
Definition quiet (src : Re.source) : Prop :=
  Re.next_is (Re.ch "?") src = false /\ Re.next_is (Re.ch "+") src = false.

(** The wildcard the fragments are joined with, and the items it parses
    to. *)
Definition wildcard (greedy : bool) : list N :=
  if greedy then py "\s*\S+\s*" else py "\s*\S+?\s*".

Definition wildcard_items (greedy : bool) : list Re.regex :=
  [Re.REPEAT true 0 None SPACE; Re.REPEAT greedy 1 None NOT_SPACE;
   Re.REPEAT true 0 None SPACE].

(** The items of a pattern: the characters of each fragment as literals,
    a wildcard between consecutive fragments. *)
Fixpoint pattern_items (greedy : bool) (frags : list (list N)) : list Re.regex :=
  match frags with
  | [] => []
  | [f] => map Re.LITERAL f
  | f :: frags' => map Re.LITERAL f ++ wildcard_items greedy ++ pattern_items greedy frags'
  end.

(** The number of items and quantifiers the parser reads in such a
    pattern. *)
Fixpoint steps_of (frags : list (list N)) : nat :=
  match frags with
  | [] => 0
  | [f] => length f
  | f :: frags' => length f + (6 + steps_of frags')
  end.

(** The tokenizer at the end of the pattern. *)
Definition end_of_pattern : Re.source := {| Re.next := None; Re.rest := [] |}.

(** The fragments with the gaps between them. *)
Fixpoint interleave (frags gaps : list (list N)) : list N :=
  match frags with
  | [] => []
  | [f] => f
  | f :: frags' =>
      match gaps with
      | g :: gaps' => f ++ g ++ interleave frags' gaps'
      | [] => f ++ interleave frags' []
      end
  end.

(** A string that does not begin, or end, with whitespace. *)
Definition starts_clean (t : list N) : Prop :=
  match t with [] => True | c :: _ => Py.isspace c = false end.

Definition ends_clean (t : list N) : Prop := starts_clean (rev t).

(** The string the loop of [match_sublist] appends for every id of the
    list: the token with the word-boundary marker taken out. *)
Definition token_strings (the_list : list Z) (id2token : gmap Z (list N))
  : list (list N) :=
  map (fun tid => Py.replace (default [] (id2token !! tid)) (py "▁") []) the_list.

(** The text the loop of [match_sublist] decodes. *)
Definition decoded_string (the_list : list Z) (id2token : gmap Z (list N)) : list N :=
  concat (token_strings the_list id2token).

(** The decoded text of the tokens at positions [a] to [b], both included. *)
Definition token_range (toks : list (list N)) (a b : nat) : list N :=
  concat (firstn (S b - a) (skipn a toks)).

(** ** Slices are substrings *)

Lemma substring_refl (t : list N) : substring t t.
Proof. exists [], []. now rewrite app_nil_r. Qed.

Lemma substring_trans (u v t : list N) : substring u v -> substring v t -> substring u t.
Proof.
  intros (p1 & q1 & ->) (p2 & q2 & ->).
  exists (p2 ++ p1), (q1 ++ q2). now rewrite <- !app_assoc.
Qed.

Lemma substring_rev (u t : list N) : substring u (rev t) -> substring (rev u) t.
Proof.
  intros (p & q & H). exists (rev q), (rev p).
  rewrite <- (rev_involutive t), H, !rev_app_distr. now rewrite <- app_assoc.
Qed.

Lemma between_substring (s : list N) (a b : nat) : substring (Re.between s a b) s.
Proof.
  unfold Re.between. exists (firstn a s), (skipn (b - a) (skipn a s)).
  now rewrite firstn_skipn, firstn_skipn.
Qed.

Lemma slice_substring (s : list N) (a b : Z) : substring (Py.slice s a b) s.
Proof.
  unfold Py.slice. cbv zeta.
  generalize (Z.to_nat (Py.clamp (Z.of_nat (length s)) a)) as x.
  generalize (Z.to_nat (Py.clamp (Z.of_nat (length s)) b)) as y. intros y x.
  exists (firstn x s), (skipn (y - x) (skipn x s)).
  now rewrite firstn_skipn, firstn_skipn.
Qed.

(** A match found by [re.search] is a match in the string searched. *)
Lemma search_string (p s : list N) (m : Re.Match) :
  Re.search p s = Ok (Some m) -> Re.m_string m = s.
Proof.
  unfold Re.search. destruct (Re.compile p); simpl; try discriminate.
  unfold Re.search_from. destruct (Re.scan _ _ _ _ _) as [[[b e] c]|]; try discriminate.
  intros [= <-]. reflexivity.
Qed.

Lemma search_group_substring (p s : list N) (m : Re.Match) :
  Re.search p s = Ok (Some m) -> substring (Re.group m) s.
Proof.
  intros H. unfold Re.group. rewrite (search_string _ _ _ H). apply between_substring.
Qed.

Ltac bind_cases H :=
  repeat match type of H with
  | bind ?e _ = Ok _ => let E := fresh "E" in destruct e eqn:E; simpl in H; try discriminate H
  end.

Lemma without_tokenizer_substring (span text unk r : list N) :
  fix_unk_from_text_without_tokenizer span text unk = Ok r ->
  r <> span ->
  exists u, substring u text /\ r = Py.strip u.
Proof.
  unfold fix_unk_from_text_without_tokenizer. intros H Hne.
  destruct (negb (Py.contains unk span)); [congruence|].
  bind_cases H.
  match type of H with match ?x with _ => _ end = _ => destruct x as [m|] end;
    [|congruence].
  injection H as <-. exists (rev (Re.group m)). split; [|reflexivity].
  apply substring_rev. eapply search_group_substring; eauto.
Qed.

(** C1. Whenever recovery, on either path of [fix_unk_from_text], returns a
    string different from the span, that string is a contiguous run of
    characters of the text with its surrounding whitespace trimmed. *)
Theorem substring_invariant (span text unk : list N)
    (tokenizer : option tokenizer_capability) (r : list N) :
  fix_unk_from_text span text unk tokenizer = Ok r ->
  r <> span ->
  exists u, substring u text /\ r = Py.strip u.
Proof.
  destruct tokenizer as [t|]; simpl; [|apply without_tokenizer_substring].
  unfold fix_unk_from_text_with_tokenizer.
  destruct (encode t text) as [tokenized_text offset_mapping].
  intros H Hne.
  destruct (match_sublist _ _ _) as [[[|m0 ms]|]| |] eqn:Em; simpl in H; try discriminate;
    try (eapply without_tokenizer_substring; eassumption).
  bind_cases H.
  match type of H with match ?x with _ => _ end = _ => destruct x as [m|] end;
    [|congruence].
  injection H as <-. exists (Re.group m). split; [|reflexivity].
  eapply substring_trans; [eapply search_group_substring; eauto|apply slice_substring].
Qed.

Lemma substring_invariant_witness :
  exists u, substring u (py "The leader of Japan is Tarō Asō .")
            /\ py "Tarō Asō" = Py.strip u.
Proof.
  apply (substring_invariant (py "Tarō As<unk>") (py "The leader of Japan is Tarō Asō .")
           default_unk None (py "Tarō Asō")).
  - vm_compute. reflexivity.
  - vm_compute. discriminate.
Defined.

(** ** The scenarios of the self-test *)

(** C3. Without a tokenizer and with the default placeholder,
    [fix_unk_from_text] returns the expected string on every entry of the
    table of [test_fix_unk_from_text], among them the three scenarios
    spelled out here. *)
Theorem concrete_scenarios :
  test_fix_unk_from_text = true
  /\ Forall (fun '(span, text, gold) =>
               fix_unk_from_text span text default_unk None = Ok gold) span_text_list
  /\ fix_unk_from_text (py "<unk> colo e Bengo")
       (py "At 159 meters above sea level , Angola International Airport is located at Ícolo e Bengo , part of Luanda Province , in Angola .")
       default_unk None = Ok (py "Ícolo e Bengo")
  /\ fix_unk_from_text (py "Tarō As<unk>") (py "The leader of Japan is Tarō Asō .")
       default_unk None = Ok (py "Tarō Asō")
  /\ fix_unk_from_text (py "<unk>Tar As<unk>") (py "The leader of Japan is ōTar Asō .")
       default_unk None = Ok (py "ōTar Asō").
Proof.
  split; [vm_compute; reflexivity|].
  split; [|repeat split; vm_compute; reflexivity].
  unfold span_text_list. repeat constructor; vm_compute; reflexivity.
Qed.

(** ** Characters that [clean_wildcard] leaves unescaped

    A span that ends in a backslash after a placeholder: the forward
    pattern of line 114 then ends in a lone backslash and does not
    compile, while the reverse pattern of line 117 begins with an escaped
    backslash and does. *)

(** C5. On the span [<unk>\] the tokenizer-free recovery raises [re.error]
    instead of returning a string. *)
Theorem backslash_span_raises :
  Py.contains default_unk (py "<unk>\") = true
  /\ forward_pattern (py "<unk>\") default_unk = Ok (py "\s*\S+\s*\")
  /\ Re.compile (py "\s*\S+\s*\") = Raise re_error
  /\ fix_unk_from_text_without_tokenizer (py "<unk>\") (py "abc") default_unk
     = Raise re_error.
Proof. repeat split; vm_compute; reflexivity. Qed.

(** C6. On the span [<unk>\] and the text [abc] the reverse pattern finds
    no match in the reversed text, and yet the span is not returned: the
    forward search of line 115 has raised before. *)
Theorem no_match_fallback_fails :
  Py.contains default_unk (py "<unk>\") = true
  /\ reverse_pattern (py "<unk>\") default_unk = Ok (py "\\s*\S+?\s*")
  /\ reverse_search (py "<unk>\") (py "abc") default_unk = Ok None
  /\ fix_unk_from_text_without_tokenizer (py "<unk>\") (py "abc") default_unk
     = Raise re_error.
Proof. repeat split; vm_compute; reflexivity. Qed.

(** C8. On the span [<unk>\] and the text [see C:\ now] the function
    raises in its forward search, while the function without the forward
    search returns [:\]. *)
Theorem forward_search_matters :
  fix_unk_from_text_without_tokenizer (py "<unk>\") (py "see C:\ now") default_unk
  = Raise re_error
  /\ fix_unk_reverse_only (py "<unk>\") (py "see C:\ now") default_unk = Ok (py ":\").
Proof. split; vm_compute; reflexivity. Qed.

(** Where the forward search does matter: past the guard of line 109 the
    function is the function without it, run after it. *)
Lemma without_tokenizer_unfold (span text unk : list N) :
  fix_unk_from_text_without_tokenizer span text unk
  = if negb (Py.contains unk span) then Ok span
    else let* _ := forward_search span text unk in fix_unk_reverse_only span text unk.
Proof.
  unfold fix_unk_from_text_without_tokenizer, fix_unk_reverse_only, forward_search,
    forward_pattern.
  destruct (negb (Py.contains unk span)) eqn:Hc; [reflexivity|].
  destruct (Py.split span unk); simpl; try reflexivity.
  destruct (mapM _ a); simpl; try reflexivity.
Qed.

Lemma forward_search_irrelevant_when_it_returns (span text unk : list N) m :
  forward_search span text unk = Ok m ->
  fix_unk_from_text_without_tokenizer span text unk = fix_unk_reverse_only span text unk.
Proof.
  intros H. rewrite without_tokenizer_unfold, H. simpl.
  unfold fix_unk_reverse_only. destruct (negb (Py.contains unk span)); reflexivity.
Qed.

(** ** The tokenizer-assisted fallback *)

(** Lines 65-67: without a match the function is the tokenizer-free one. *)
Lemma with_tokenizer_no_match (span text unk : list N) (tokenizer : tokenizer_capability) :
  match_sublist (encode tokenizer text).1 span (id2token_of tokenizer) = Ok None ->
  fix_unk_from_text_with_tokenizer span text unk tokenizer
  = fix_unk_from_text_without_tokenizer span text unk.
Proof.
  unfold fix_unk_from_text_with_tokenizer, id2token_of.
  destruct (encode tokenizer text) as [tokenized_text offset_mapping]. simpl.
  intros ->. reflexivity.
Qed.

(** C7. When the token sublist search, called with the raw span, finds no
    match, the tokenizer-assisted recovery is the tokenizer-free recovery
    of the same span and text. *)
Theorem tokenizer_fallback (span text unk : list N) (tokenizer : tokenizer_capability) :
  match_sublist (encode tokenizer text).1 span (id2token_of tokenizer) = Ok None ->
  fix_unk_from_text_with_tokenizer span text unk tokenizer
  = fix_unk_from_text_without_tokenizer span text unk.
Proof. apply with_tokenizer_no_match. Qed.

Lemma tokenizer_fallback_witness :
  fix_unk_from_text_with_tokenizer (py "a<unk>") (py "ab") default_unk char_tokenizer
  = fix_unk_from_text_without_tokenizer (py "a<unk>") (py "ab") default_unk.
Proof.
  apply (tokenizer_fallback (py "a<unk>") (py "ab") default_unk char_tokenizer).
  vm_compute. reflexivity.
Defined.

(** ** The empty search target of [match_sublist] *)

Lemma decode_loop_known (the_list : list Z) (id2token : gmap Z (list N)) :
  Forall (fun tid => is_Some (id2token !! tid)) the_list ->
  exists toks,
    length toks = length the_list
    /\ (forall n, token_at the_list id2token n = nth_error toks n)
    /\ forall i d,
        decode_loop the_list i id2token d
        = Ok {| decoded_text := decoded_text d ++ concat toks;
                decoded_offset_mapping := decoded_offset_mapping d ++ offsets_from i toks;
                offset := (offset d + Z.of_nat (length (concat toks)))%Z;
                tokens := tokens d ++ toks |}.
Proof.
  induction 1 as [|tid l [t Ht] _ (toks & Hlen & Htok & IH)].
  - exists []. split; [reflexivity|]. split.
    + intros [|n]; reflexivity.
    + intros i [dt dom off tk]. simpl. now rewrite !app_nil_r, Z.add_0_r.
  - exists (Py.replace t (py "▁") [] :: toks). split; [simpl; congruence|]. split.
    + intros [|n]; unfold token_at; simpl.
      * now rewrite Ht.
      * apply Htok.
    + intros i d. simpl decode_loop. rewrite Ht, IH. simpl.
      rewrite <- !app_assoc, length_app, Nat2Z.inj_add, Z.add_assoc. reflexivity.
Qed.

Lemma offsets_from_length (i : Z) (toks : list (list N)) :
  length (offsets_from i toks) = length (concat toks).
Proof.
  revert i. induction toks as [|t toks IH]; intros i; simpl; [reflexivity|].
  now rewrite !length_app, length_map, IH.
Qed.

(** The first entry of the offset array is the index of the first token
    that is not empty. *)
Lemma offsets_from_first (toks : list (list N)) (i x : Z) (l : list Z) :
  offsets_from i toks = x :: l ->
  exists (k : nat) (t : list N),
    x = (i + Z.of_nat k)%Z /\ nth_error toks k = Some t /\ t <> []
    /\ forall n, (n < k)%nat -> nth_error toks n = Some [].
Proof.
  revert i. induction toks as [|t toks IH]; intros i; simpl; [discriminate|].
  destruct t as [|c t].
  - simpl. intros H. destruct (IH _ H) as (k & t' & -> & Hk & Hne & Hbefore).
    exists (S k), t'. repeat split; [lia|assumption|assumption|].
    intros [|n] Hn; simpl; [reflexivity|apply Hbefore; lia].
  - simpl. intros [= <- _]. exists 0%nat, (c :: t).
    repeat split; [lia|discriminate|lia].
Qed.

(** Its last entry is the index of the last token that is not empty. *)
Lemma offsets_from_last (toks : list (list N)) (i x : Z) (l : list Z) :
  offsets_from i toks = l ++ [x] ->
  exists (k : nat) (t : list N),
    x = (i + Z.of_nat k)%Z /\ nth_error toks k = Some t /\ t <> []
    /\ forall n, (k < n < length toks)%nat -> nth_error toks n = Some [].
Proof.
  revert i l. induction toks as [|t toks IH]; intros i l; simpl.
  - intros H. now destruct l.
  - destruct (offsets_from (i + 1) toks) as [|y rest] eqn:E.
    + (* every later token is empty *)
      rewrite app_nil_r. intros H.
      assert (Hempty : forall n, (n < length toks)%nat -> nth_error toks n = Some []).
      { assert (Hc : concat toks = []).
        { apply length_zero_iff_nil. now rewrite <- offsets_from_length with (i := (i + 1)%Z), E. }
        clear -Hc. induction toks as [|u toks IH]; simpl; intros n Hn; [lia|].
        simpl in Hc. apply app_eq_nil in Hc as [-> Hc].
        destruct n; simpl; [reflexivity|apply IH; [assumption|lia]]. }
      exists 0%nat, t. destruct t as [|c t]; [now destruct l|].
      repeat split.
      * assert (Hin : In x (map (fun _ : N => i) (c :: t)))
          by (rewrite H; apply in_or_app; right; left; reflexivity).
        apply in_map_iff in Hin as (? & <- & _). lia.
      * discriminate.
      * intros [|n] Hn; [lia|]. simpl. apply Hempty. simpl in Hn. lia.
    + intros H.
      destruct (exists_last (l := y :: rest)) as (l' & z & El); [discriminate|].
      rewrite El, app_assoc in H. apply app_inj_tail in H as [_ <-].
      rewrite El in E. destruct (IH _ _ E) as (k & t' & -> & Hk & Hne & Hafter).
      exists (S k), t'. repeat split; [lia|assumption|assumption|].
      intros [|n] Hn; [lia|]. simpl. apply Hafter. simpl in Hn. lia.
Qed.

Lemma getitem_first {A} (x : A) (l : list A) : Py.getitem (x :: l) 0 = Ok x.
Proof. reflexivity. Qed.

Lemma getitem_last {A} (l : list A) (x : A) : Py.getitem (l ++ [x]) (-1) = Ok x.
Proof.
  unfold Py.getitem. rewrite length_app. simpl length.
  replace (-1 <? 0)%Z with true by reflexivity.
  replace (-1 + Z.of_nat (length l + 1))%Z with (Z.of_nat (length l)) by lia.
  destruct (Z.ltb_spec (Z.of_nat (length l)) 0); [lia|].
  rewrite Nat2Z.id, nth_error_app2, Nat.sub_diag by lia. reflexivity.
Qed.

(** C10. For a token list all of whose ids are in the reverse vocabulary
    and whose decoded text is not empty, [match_sublist] with the empty
    target returns the index of the token that produced the first decoded
    character and the index of the token that produced the last one. *)
Theorem empty_target_full_range (the_list : list Z) (id2token : gmap Z (list N)) :
  Forall (fun tid => is_Some (id2token !! tid)) the_list ->
  (exists n t, token_at the_list id2token n = Some t /\ t <> []) ->
  exists (i j : nat) (ti tj : list N),
    match_sublist the_list [] id2token = Ok (Some [Z.of_nat i; Z.of_nat j])
    /\ token_at the_list id2token i = Some ti /\ ti <> []
    /\ (forall n, (n < i)%nat -> token_at the_list id2token n = Some [])
    /\ token_at the_list id2token j = Some tj /\ tj <> []
    /\ (forall n, (j < n < length the_list)%nat -> token_at the_list id2token n = Some []).
Proof.
  intros Hknown (n0 & t0 & Hn0 & Hne0).
  destruct (decode_loop_known _ _ Hknown) as (toks & Hlen & Htok & Hloop).
  unfold match_sublist. rewrite Hloop. simpl.
  assert (Hnonempty : offsets_from 0 toks <> []).
  { intros E. apply (f_equal (@length Z)) in E. rewrite offsets_from_length in E.
    simpl in E. apply length_zero_iff_nil in E.
    rewrite Htok in Hn0. clear -E Hn0 Hne0. revert n0 Hn0.
    induction toks as [|u toks IH]; intros [|n] H; simpl in *; try discriminate.
    - injection H as ->. now apply app_eq_nil in E as [-> _].
    - apply app_eq_nil in E as [_ E]. eauto. }
  destruct (offsets_from 0 toks) as [|x l] eqn:E; [congruence|].
  destruct (exists_last (l := x :: l)) as (l' & z & El); [discriminate|].
  destruct (offsets_from_first _ _ _ _ E) as (i & ti & -> & Hi & Hnei & Hbefore).
  rewrite El in E. destruct (offsets_from_last _ _ _ _ E) as (j & tj & -> & Hj & Hnej & Hafter).
  exists i, j, ti, tj.
  replace (Py.find (concat toks) []) with 0%Z by (now destruct (concat toks)).
  simpl Z.eqb. cbv iota. rewrite getitem_first. simpl bind.
  replace (0 + Z.of_nat (@length N []) - 1)%Z with (-1)%Z by reflexivity.
  rewrite El, getitem_last. simpl.
  rewrite !Htok. repeat split; try assumption.
  - intros n Hn. rewrite Htok. now apply Hbefore.
  - intros n Hn. rewrite Htok. apply Hafter. lia.
Qed.

Lemma empty_target_full_range_witness :
  exists (i j : nat) (ti tj : list N),
    match_sublist [0; 1; 2; 0]%Z [] sample_id2token = Ok (Some [Z.of_nat i; Z.of_nat j])
    /\ token_at [0; 1; 2; 0]%Z sample_id2token i = Some ti /\ ti <> []
    /\ (forall n, (n < i)%nat -> token_at [0; 1; 2; 0]%Z sample_id2token n = Some [])
    /\ token_at [0; 1; 2; 0]%Z sample_id2token j = Some tj /\ tj <> []
    /\ (forall n, (j < n < length [0; 1; 2; 0]%Z)%nat ->
                  token_at [0; 1; 2; 0]%Z sample_id2token n = Some []).
Proof.
  apply (empty_target_full_range [0; 1; 2; 0]%Z sample_id2token).
  - repeat constructor; eexists; vm_compute; reflexivity.
  - exists 1%nat, (py "a"). split; [vm_compute; reflexivity|discriminate].
Defined.

(** ** What a successful match consumed *)

Section RepeatSound.
Variable P : list N -> Prop.
Variable body : nat -> list N -> Re.caps -> Re.K -> option (nat * Re.caps).
Hypothesis body_sound : sound_for P body.
Variables (lo : nat) (hi : option nat).

Lemma repeat_result_stop count i w c k x :
  (lo <= count)%nat -> k i w c = Some x -> repeat_result P lo count i w k x.
Proof.
  intros Hlo Hk. exists [], w, c. simpl. rewrite !Nat.add_0_r.
  repeat apply conj; [reflexivity|constructor|assumption|assumption].
Qed.

Lemma repeat_result_step count i w k x u w1 :
  w = u ++ w1 -> P u -> repeat_result P lo (S count) (i + length u)%nat w1 k x ->
  repeat_result P lo count i w k x.
Proof.
  intros -> Hu (us & w' & c' & -> & Hus & Hlo & Hk).
  exists (u :: us), w', c'. simpl. rewrite <- app_assoc.
  repeat apply conj; [reflexivity|constructor; assumption|lia|].
  now rewrite length_app, Nat.add_assoc.
Qed.

Lemma max_until_sound fuel : forall count last i w c k x,
  Re.max_until body lo hi fuel count last i w c k = Some x ->
  repeat_result P lo count i w k x.
Proof.
  induction fuel as [|fuel IH]; intros count last i w c k x; simpl; [discriminate|].
  destruct (Nat.ltb_spec count lo) as [Hlt|Hge].
  - intros H. apply body_sound in H as (u & w1 & c1 & Hw & Hu & H).
    apply IH in H. eapply repeat_result_step; eauto.
  - destruct (Re.below_max hi count && negb (Re.same_pos last i)).
    + destruct (body i w c _) as [y|] eqn:Eb.
      * intros [= <-]. apply body_sound in Eb as (u & w1 & c1 & Hw & Hu & H).
        apply IH in H. eapply repeat_result_step; eauto.
      * apply repeat_result_stop; assumption.
    + apply repeat_result_stop; assumption.
Qed.

Lemma min_until_sound fuel : forall count last i w c k x,
  Re.min_until body lo hi fuel count last i w c k = Some x ->
  repeat_result P lo count i w k x.
Proof.
  induction fuel as [|fuel IH]; intros count last i w c k x; simpl; [discriminate|].
  destruct (Nat.ltb_spec count lo) as [Hlt|Hge].
  - intros H. apply body_sound in H as (u & w1 & c1 & Hw & Hu & H).
    apply IH in H. eapply repeat_result_step; eauto.
  - destruct (k i w c) as [y|] eqn:Ek.
    + intros [= <-]. eapply repeat_result_stop; eauto.
    + destruct (negb (Re.below_max hi count) || Re.same_pos last i); [discriminate|].
      intros H. apply body_sound in H as (u & w1 & c1 & Hw & Hu & H).
      apply IH in H. eapply repeat_result_step; eauto.
Qed.
End RepeatSound.

Lemma startswith_app (t w : list N) :
  Py.startswith t w = true -> w = t ++ skipn (length t) w.
Proof.
  revert w. induction t as [|a t IH]; intros [|b w]; simpl; try discriminate; try reflexivity.
  intros H. apply andb_prop in H as [Hab H]. apply N.eqb_eq in Hab as ->.
  f_equal. now apply IH.
Qed.

(** Soundness of the matcher: a success of [sre_match] on [r] took a
    string of [lang r] from the front of the subject. *)
Theorem sre_match_sound (s : list N) (r : Re.regex) : sound_for (lang r) (Re.sre_match s r).
Proof.
  induction r as [|a| |negate items|a|r1 IH1 r2 IH2|r1 IH1 r2 IH2
                 |greedy lo hi r1 IH1|g r1 IH1|g];
    intros i w c k x; simpl.
  - intros H. exists [], w, c. simpl. now rewrite Nat.add_0_r.
  - destruct w as [|b w]; [discriminate|]. destruct (N.eqb_spec b a) as [->|]; [|discriminate].
    intros H. exists [a], w, c. simpl. now rewrite Nat.add_1_r.
  - destruct w as [|b w]; [discriminate|]. destruct (N.eqb_spec b 10); [discriminate|].
    intros H. exists [b], w, c. simpl. rewrite Nat.add_1_r. eauto.
  - destruct w as [|b w]; [discriminate|]. destruct (Re.in_set negate items b) eqn:E; [|discriminate].
    intros H. exists [b], w, c. simpl. rewrite Nat.add_1_r. eauto.
  - destruct (Re.at_ok a i w); [|discriminate].
    intros H. exists [], w, c. simpl. now rewrite Nat.add_0_r.
  - intros H. apply IH1 in H as (u1 & w1 & c1 & -> & Hu1 & H).
    apply IH2 in H as (u2 & w2 & c2 & -> & Hu2 & H).
    exists (u1 ++ u2), w2, c2. rewrite <- app_assoc, length_app, Nat.add_assoc. eauto 10.
  - destruct (Re.sre_match s r1 i w c k) as [y|] eqn:E.
    + intros [= <-]. apply IH1 in E as (u & w' & c' & ? & ? & ?). eauto 10.
    + intros H. apply IH2 in H as (u & w' & c' & ? & ? & ?). eauto 10.
  - intros H.
    assert (Hr : repeat_result (lang r1) (N.to_nat lo) 0 i w k x).
    { destruct greedy; [eapply max_until_sound|eapply min_until_sound]; eauto. }
    destruct Hr as (us & w' & c' & -> & Hus & Hlo & Hk).
    exists (concat us), w', c'. eauto 10.
  - intros H. apply IH1 in H as (u & w' & c' & ? & ? & ?). eauto 10.
  - destruct (Re.get_mark g c) as [[a b]|]; [|discriminate].
    destruct (Py.startswith _ w) eqn:E; [|discriminate].
    intros H. apply startswith_app in E. eauto 10.
Qed.

(** Soundness of the search: the match found is a string of [lang]. *)
Lemma scan_sound (s : list N) (r : Re.regex) (w : list N) :
  forall adv p b e c,
    Re.scan s r adv p w = Some (b, e, c) ->
    exists pre u post, w = pre ++ u ++ post /\ lang r u
                       /\ b = (p + length pre)%nat /\ e = (b + length u)%nat.
Proof.
  induction w as [|a w IH]; intros adv p b e c; simpl.
  - destruct (Re.sre_match s r p [] [] _) as [[j c']|] eqn:E; [|discriminate].
    intros [= <- <- <-]. apply sre_match_sound in E as (u & w' & c1 & Hw & Hu & Hk).
    destruct (adv && _); [discriminate|]. injection Hk as <- <-.
    exists [], u, w'. simpl. repeat split; auto.
  - destruct (Re.sre_match s r p (a :: w) [] _) as [[j c']|] eqn:E.
    + intros [= <- <- <-]. apply sre_match_sound in E as (u & w' & c1 & Hw & Hu & Hk).
      destruct (adv && _); [discriminate|]. injection Hk as <- <-.
      exists [], u, w'. simpl. repeat split; auto.
    + intros H. apply IH in H as (pre & u & post & -> & Hu & -> & ->).
      exists (a :: pre), u, post. simpl. repeat split; auto.
Qed.

(** ** The two wildcards *)

Lemma in_set_space (c : N) :
  Re.in_set false [Re.SET_CATEGORY Re.CATEGORY_SPACE] c = Py.isspace c.
Proof. unfold Re.in_set. simpl. now rewrite orb_false_r. Qed.

Lemma in_set_not_space (c : N) :
  Re.in_set false [Re.SET_CATEGORY Re.CATEGORY_NOT_SPACE] c = negb (Py.isspace c).
Proof. unfold Re.in_set. simpl. now rewrite orb_false_r. Qed.

Lemma compile_greedy_wildcard :
  Re.compile (py "\s*\S+\s*") = Ok {| Re.code := connector true Re.Empty; Re.ngroups := 0 |}.
Proof. vm_compute. reflexivity. Qed.

Lemma compile_lazy_wildcard :
  Re.compile (py "\s*\S+?\s*") = Ok {| Re.code := connector false Re.Empty; Re.ngroups := 0 |}.
Proof. vm_compute. reflexivity. Qed.

(** A repeated character set takes characters of the set only, and at
    least the minimum of them. *)
Lemma lang_repeat_set greedy lo hi negate items (u : list N) :
  lang (Re.REPEAT greedy lo hi (Re.IN negate items)) u ->
  Forall (fun c => Re.in_set negate items c = true) u /\ (N.to_nat lo <= length u)%nat.
Proof.
  intros (us & -> & Hus & Hlo).
  assert (H : Forall (fun c => Re.in_set negate items c = true) (concat us)
              /\ length (concat us) = length us).
  { clear Hlo. induction Hus as [|v us (c & -> & Hc) _ [IH1 IH2]]; simpl.
    - split; [constructor|reflexivity].
    - split; [constructor; assumption|congruence]. }
  destruct H as [H1 H2]. split; [assumption|lia].
Qed.

Lemma lang_connector greedy tail (u : list N) :
  lang (connector greedy tail) u -> exists g v, u = g ++ v /\ is_gap g /\ lang tail v.
Proof.
  intros (a & u1 & -> & Ha & b & u2 & -> & Hb & c & v & -> & Hc & Hv).
  apply lang_repeat_set in Ha as [Ha _], Hb as [Hb Hlen], Hc as [Hc _].
  exists (a ++ b ++ c), v. split; [now rewrite <- !app_assoc|]. split; [|assumption].
  exists a, b, c. split; [reflexivity|].
  split; [eapply List.Forall_impl; [|exact Ha]; intros; now rewrite <- in_set_space|].
  split; [destruct b; [simpl in Hlen; lia|discriminate]|].
  split; [|eapply List.Forall_impl; [|exact Hc]; intros; now rewrite <- in_set_space].
  eapply List.Forall_impl; [|exact Hb]. intros x Hx. cbv beta in Hx.
  rewrite in_set_not_space in Hx. now destruct (Py.isspace x).
Qed.

Lemma max_until_eq body lo hi fuel count last i w c k :
  Re.max_until body lo hi (S fuel) count last i w c k
  = if (count <? lo)%nat then
      body i w c (fun j w' c' => Re.max_until body lo hi fuel (S count) last j w' c' k)
    else if Re.below_max hi count && negb (Re.same_pos last i) then
      match body i w c
              (fun j w' c' => Re.max_until body lo hi fuel (S count) (Some i) j w' c' k) with
      | Some x => Some x
      | None => k i w c
      end
    else k i w c.
Proof. reflexivity. Qed.

Lemma sre_match_IN (s : list N) negate items i (w : list N) c k :
  Re.sre_match s (Re.IN negate items) i w c k
  = match w with
    | a :: w' => if Re.in_set negate items a then k (S i) w' c else None
    | [] => None
    end.
Proof. reflexivity. Qed.

(** A greedy repeat of a character set over a run of characters of the
    set that ends where the set ends: the first thing tried is the whole
    run. *)
Lemma max_until_run (s : list N) negate items (w2 : list N) c k x :
  match w2 with [] => True | d :: _ => Re.in_set negate items d = false end ->
  forall (run : list N) fuel count last i,
    Forall (fun a => Re.in_set negate items a = true) run ->
    (length run < fuel)%nat ->
    Re.same_pos last i = false ->
    k (i + length run)%nat w2 c = Some x ->
    Re.max_until (Re.sre_match s (Re.IN negate items)) 0 None fuel count last i
      (run ++ w2) c k = Some x.
Proof.
  intros Hw2. induction run as [|a run IH]; intros fuel count last i Hrun Hfuel Hlast Hk;
    (destruct fuel as [|fuel]; [simpl in Hfuel; lia|]);
    rewrite max_until_eq, Hlast;
    cbn -[Re.max_until Re.sre_match Re.in_set]; rewrite sre_match_IN.
  - rewrite Nat.add_0_r in Hk.
    destruct w2 as [|d w2]; [assumption|]. now rewrite Hw2.
  - inversion Hrun as [|? ? Ha Hrun']; subst. rewrite Ha.
    rewrite (IH fuel (S count) (Some i) (S i)); [reflexivity|assumption|simpl in Hfuel; lia| |].
    + simpl. apply Nat.eqb_neq. lia.
    + simpl in Hk. now rewrite Nat.add_succ_r in Hk.
Qed.

Lemma min_until_eq body lo hi fuel count last i w c k :
  Re.min_until body lo hi (S fuel) count last i w c k
  = if (count <? lo)%nat then
      body i w c (fun j w' c' => Re.min_until body lo hi fuel (S count) last j w' c' k)
    else
      match k i w c with
      | Some x => Some x
      | None =>
          if negb (Re.below_max hi count) || Re.same_pos last i then None
          else body i w c
                 (fun j w' c' => Re.min_until body lo hi fuel (S count) (Some i) j w' c' k)
      end.
Proof. reflexivity. Qed.

Lemma sre_match_REPEAT (s : list N) greedy lo hi r i (w : list N) c k :
  Re.sre_match s (Re.REPEAT greedy lo hi r) i w c k
  = (if greedy then Re.max_until else Re.min_until)
      (Re.sre_match s r) (N.to_nat lo) (option_map N.to_nat hi)
      (N.to_nat lo + length w + 2)%nat 0%nat None i w c k.
Proof. reflexivity. Qed.

Lemma sre_match_Cat (s : list N) r1 r2 i (w : list N) c k :
  Re.sre_match s (Re.Cat r1 r2) i w c k
  = Re.sre_match s r1 i w c (fun j w' c' => Re.sre_match s r2 j w' c' k).
Proof. reflexivity. Qed.

Lemma star_run (s : list N) negate items (run w2 : list N) i c k x :
  Forall (fun a => Re.in_set negate items a = true) run ->
  match w2 with [] => True | d :: _ => Re.in_set negate items d = false end ->
  k (i + length run)%nat w2 c = Some x ->
  Re.sre_match s (Re.REPEAT true 0 None (Re.IN negate items)) i (run ++ w2) c k = Some x.
Proof.
  intros Hrun Hw2 Hk. rewrite sre_match_REPEAT. change (N.to_nat 0) with 0%nat.
  apply (max_until_run s); try assumption; [rewrite length_app; lia|reflexivity].
Qed.

(** A lazy repeat of at least one character of a set: the first thing
    tried is one character. *)
Lemma lazy_plus_one (s : list N) negate items (a : N) (w : list N) i c k x :
  Re.in_set negate items a = true ->
  k (S i) w c = Some x ->
  Re.sre_match s (Re.REPEAT false 1 None (Re.IN negate items)) i (a :: w) c k = Some x.
Proof.
  intros Ha Hk. rewrite sre_match_REPEAT. change (N.to_nat 1) with 1%nat.
  cbn [length Nat.add]. rewrite min_until_eq. cbn [Nat.ltb Nat.leb].
  rewrite sre_match_IN, Ha.
  replace (length w + 2)%nat with (S (S (length w))) by lia.
  rewrite min_until_eq. cbn [Nat.ltb Nat.leb]. now rewrite Hk.
Qed.

(** The lazy wildcard at the front of [ws1 ++ a :: ws2 ++ rest]: it takes
    the whitespace [ws1], the one character [a] and the whitespace
    [ws2]. *)
Lemma lazy_connector_first (s ws1 ws2 rest : list N) (a : N) tail i c k x :
  all_space ws1 -> Py.isspace a = false -> all_space ws2 ->
  match rest with [] => True | d :: _ => Py.isspace d = false end ->
  Re.sre_match s tail (i + length ws1 + 1 + length ws2)%nat rest c k = Some x ->
  Re.sre_match s (connector false tail) i (ws1 ++ a :: ws2 ++ rest) c k = Some x.
Proof.
  intros H1 Ha H2 Hrest Hk. unfold connector. rewrite sre_match_Cat.
  apply (star_run s false _ ws1 (a :: ws2 ++ rest)).
  - eapply List.Forall_impl; [|exact H1]. intros; now rewrite in_set_space.
  - now rewrite in_set_space.
  - rewrite sre_match_Cat.
    apply lazy_plus_one; [rewrite in_set_not_space; now rewrite Ha|].
    rewrite sre_match_Cat.
    apply (star_run s false _ ws2 rest).
    + eapply List.Forall_impl; [|exact H2]. intros; now rewrite in_set_space.
    + destruct rest; [exact I|now rewrite in_set_space].
    + rewrite <- Hk. f_equal. lia.
Qed.

(** ** The function in terms of its two patterns *)

Lemma without_tokenizer_eq (span text unk : list N) :
  fix_unk_from_text_without_tokenizer span text unk
  = if negb (Py.contains unk span) then Ok span
    else
      let* p := forward_pattern span unk in
      let* _ := Re.search p text in
      let* q := reverse_pattern span unk in
      let* result_reversed := Re.search q (rev text) in
      match result_reversed with
      | None => Ok span
      | Some m => Ok (Py.strip (rev (Re.group m)))
      end.
Proof.
  unfold fix_unk_from_text_without_tokenizer, forward_pattern, reverse_pattern.
  destruct (negb (Py.contains unk span)); [reflexivity|].
  destruct (Py.split span unk); simpl; try reflexivity.
  destruct (mapM (fun item => clean_wildcard (Py.strip item)) a); simpl; try reflexivity.
  destruct (Re.search _ text); simpl; try reflexivity.
  destruct (mapM _ a); reflexivity.
Qed.

(** ** Trimming *)

Lemma lstrip_all_space (ws l : list N) : all_space ws -> Py.lstrip (ws ++ l) = Py.lstrip l.
Proof. induction 1 as [|a ws Ha _ IH]; simpl; [reflexivity|]. now rewrite Ha. Qed.

Lemma lstrip_no_space (a : N) (l : list N) :
  Py.isspace a = false -> Py.lstrip (a :: l) = a :: l.
Proof. intros Ha. simpl. now rewrite Ha. Qed.

Lemma all_space_rev (l : list N) : all_space l -> all_space (rev l).
Proof. intros H. apply List.Forall_rev. exact H. Qed.

Lemma no_space_rev (l : list N) : no_space l -> no_space (rev l).
Proof. intros H. apply List.Forall_rev. exact H. Qed.

Lemma rstrip_all_space (l ws : list N) : all_space ws -> Py.rstrip (l ++ ws) = Py.rstrip l.
Proof.
  intros H. unfold Py.rstrip. rewrite rev_app_distr, lstrip_all_space; [reflexivity|].
  now apply all_space_rev.
Qed.

Lemma rstrip_no_space (l : list N) (a : N) :
  Py.isspace a = false -> Py.rstrip (l ++ [a]) = l ++ [a].
Proof.
  intros Ha. unfold Py.rstrip. rewrite rev_app_distr. simpl. rewrite Ha. simpl.
  now rewrite rev_involutive.
Qed.

(** Every string is a run of whitespace followed by nothing or by a
    string that starts with another character. *)
Lemma space_prefix (l : list N) :
  exists ws rest, l = ws ++ rest /\ all_space ws
                  /\ match rest with [] => True | d :: _ => Py.isspace d = false end.
Proof.
  induction l as [|a l (ws & rest & -> & Hws & Hrest)].
  - exists [], []. repeat split. constructor.
  - destruct (Py.isspace a) eqn:Ha.
    + exists (a :: ws), rest. repeat split; [constructor; assumption|assumption].
    + exists [], (a :: ws ++ rest). repeat split; [constructor|assumption].
Qed.

(** ** A span that is the placeholder *)

Lemma last_nonspace_some (text : list N) (c : N) :
  last_nonspace text = Some c ->
  exists pre post, text = pre ++ c :: post /\ Py.isspace c = false /\ all_space post.
Proof.
  revert c. induction text as [|a text IH]; intros c; simpl; [discriminate|].
  destruct (last_nonspace text) as [d|] eqn:E.
  - intros [= ->]. destruct (IH c eq_refl) as (pre & post & -> & Hc & Hpost).
    exists (a :: pre), post. repeat apply conj; [reflexivity|assumption|assumption].
  - destruct (Py.isspace a) eqn:Ha; [discriminate|]. intros [= ->].
    exists [], text. repeat apply conj; [reflexivity|assumption|].
    clear -E. induction text as [|b text IH]; [constructor|]. simpl in E.
    destruct (last_nonspace text); [discriminate|].
    destruct (Py.isspace b) eqn:Hb; [|discriminate]. constructor; [assumption|exact (IH eq_refl)].
Qed.

Lemma last_nonspace_none (text : list N) : last_nonspace text = None -> all_space text.
Proof.
  induction text as [|b text IH]; [constructor|]. simpl.
  destruct (last_nonspace text); [discriminate|].
  destruct (Py.isspace b) eqn:Hb; [|discriminate]. constructor; [assumption|exact (IH eq_refl)].
Qed.

Lemma startswith_refl (s : list N) : Py.startswith s s = true.
Proof. induction s as [|a s IH]; simpl; [reflexivity|]. now rewrite N.eqb_refl. Qed.

Lemma contains_self (s : list N) : Py.contains s s = true.
Proof.
  unfold Py.contains, Py.find. destruct s; simpl; [reflexivity|].
  now rewrite N.eqb_refl, startswith_refl.
Qed.

Lemma split_go_skip (sep s cur : list N) (n : nat) :
  (length s <= n)%nat -> Py.split_go sep s n cur = [rev cur].
Proof.
  revert n. induction s as [|a s IH]; intros n Hn; simpl; [reflexivity|].
  destruct n; simpl in Hn; [lia|]. apply IH. lia.
Qed.

Lemma split_self (unk : list N) : unk <> [] -> Py.split unk unk = Ok [[]; []].
Proof.
  destruct unk as [|a u]; [congruence|]. intros _. unfold Py.split.
  cbn [Py.split_go]. rewrite startswith_refl. simpl length. simpl Nat.pred.
  now rewrite split_go_skip.
Qed.

Lemma clean_wildcard_nil : clean_wildcard [] = Ok [].
Proof. vm_compute. reflexivity. Qed.

Lemma forward_pattern_self (unk : list N) :
  unk <> [] -> forward_pattern unk unk = Ok (py "\s*\S+\s*").
Proof.
  intros H. unfold forward_pattern. rewrite (split_self _ H).
  cbn [bind mapM]. change (Py.strip []) with (@nil N). rewrite clean_wildcard_nil.
  cbn [bind Py.join app]. now rewrite app_nil_r.
Qed.

Lemma reverse_pattern_self (unk : list N) :
  unk <> [] -> reverse_pattern unk unk = Ok (py "\s*\S+?\s*").
Proof.
  intros H. unfold reverse_pattern. rewrite (split_self _ H).
  cbn [bind mapM]. change (rev (Py.strip [])) with (@nil N). rewrite clean_wildcard_nil.
  cbn [bind Py.join app rev]. now rewrite app_nil_r.
Qed.

(** The lazy wildcard finds nothing in whitespace. *)
Lemma lazy_wildcard_no_match (s w : list N) :
  all_space w -> forall adv p, Re.scan s (connector false Re.Empty) adv p w = None.
Proof.
  intros Hw adv p. destruct (Re.scan _ _ _ _ _) as [[[b e] c]|] eqn:E; [|reflexivity].
  exfalso. apply scan_sound in E as (pre & u & post & -> & Hu & _).
  apply lang_connector in Hu as (g & v & -> & (x & y & z & -> & _ & Hy & Hno & _) & _).
  destruct y as [|d y]; [congruence|].
  assert (Hd : Py.isspace d = true).
  { unfold all_space in Hw. rewrite Forall_forall in Hw. apply Hw.
    rewrite !elem_of_app. right. left. left. right. left. left. }
  inversion Hno; subst. congruence.
Qed.

(** C9. When the span is the placeholder itself (a marker of at least one
    character), tokenizer-free recovery returns the last character of
    the text that is not whitespace, as a string of one character, and
    returns the span when the text has no such character. *)
Theorem placeholder_only_span (unk text : list N) :
  unk <> [] ->
  fix_unk_from_text_without_tokenizer unk text unk
  = Ok (match last_nonspace text with
        | Some c => [c]
        | None => unk
        end).
Proof.
  intros Hunk. rewrite without_tokenizer_eq, contains_self. cbn [negb].
  rewrite (forward_pattern_self _ Hunk). cbn [bind].
  unfold Re.search at 1. rewrite compile_greedy_wildcard. cbn [bind].
  rewrite (reverse_pattern_self _ Hunk). cbn [bind].
  unfold Re.search. rewrite compile_lazy_wildcard. cbn [bind].
  unfold Re.search_from. cbn [Re.code].
  change (skipn 0 (rev text)) with (rev text).
  destruct (last_nonspace text) as [c|] eqn:E.
  - apply last_nonspace_some in E as (pre & post & -> & Hc & Hpost).
    rewrite rev_app_distr. simpl rev. rewrite <- app_assoc. simpl app.
    destruct (space_prefix (rev pre)) as (ws2 & rest & Hpre & Hws2 & Hrest).
    rewrite Hpre.
    set (s := rev post ++ c :: ws2 ++ rest).
    assert (Hscan : Re.scan s (connector false Re.Empty) false 0 s
                    = Some (0, length (rev post) + 1 + length ws2, [])%nat).
    { destruct s as [|a s'] eqn:Es; [now destruct (rev post)|]. rewrite <- Es.
      assert (Hm : Re.sre_match s (connector false Re.Empty) 0 s []
                     (fun j _ c0 => if false && (j =? 0)%nat then None else Some (j, c0))
                   = Some (length (rev post) + 1 + length ws2, [])%nat).
      { unfold s at 2. apply lazy_connector_first; auto using all_space_rev. }
      rewrite Es in Hm |- *. cbn [Re.scan]. rewrite Hm. reflexivity. }
    rewrite Hscan. cbn [bind]. f_equal. unfold Re.group. cbn [Re.m_string Re.m_start Re.m_end].
    unfold Re.between. rewrite Nat.sub_0_r. cbn [skipn]. unfold s.
    replace (rev post ++ c :: ws2 ++ rest) with ((rev post ++ c :: ws2) ++ rest)
      by (now rewrite <- app_assoc).
    replace (length (rev post) + 1 + length ws2)%nat with (length (rev post ++ c :: ws2))
      by (rewrite length_app; simpl; lia).
    rewrite skipn_O, firstn_app, Nat.sub_diag, firstn_all. simpl firstn. rewrite app_nil_r.
    rewrite rev_app_distr. simpl rev. rewrite rev_involutive, <- app_assoc. simpl app.
    unfold Py.strip. rewrite lstrip_all_space by (now apply all_space_rev).
    rewrite lstrip_no_space by assumption.
    change (c :: post) with ([c] ++ post). rewrite rstrip_all_space by assumption.
    apply (rstrip_no_space [] c Hc).
  - apply last_nonspace_none in E.
    rewrite lazy_wildcard_no_match by (now apply all_space_rev). reflexivity.
Qed.

Lemma placeholder_only_span_witness :
  fix_unk_from_text_without_tokenizer default_unk (py "  ab c d  ") default_unk
  = Ok (py "d").
Proof.
  apply (placeholder_only_span default_unk (py "  ab c d  ")). discriminate.
Defined.

(** ** What [clean_wildcard] computes *)

Lemma clean_wildcard_unfold (x : list N) :
  clean_wildcard x
  = Ok (Re.sub_loop (2 * length x + 2) clean_pattern clean_template x 0 0 false).
Proof.
  unfold clean_wildcard, Re.sub.
  set (pat := py "(" ++ _ ++ py ")").
  assert (Hpat : Re.compile pat = Ok clean_pattern) by (vm_compute; reflexivity).
  rewrite Hpat. cbn [bind].
  assert (Htpl : (if existsb (N.eqb (Re.ch "\")) (py "\\\g<1>")
                  then let* src := Re.Tokenizer (py "\\\g<1>") in
                       Re.parse_template (S (length (py "\\\g<1>"))) src
                         (Re.ngroups clean_pattern)
                  else Ok [Re.PLiteral (py "\\\g<1>")]) = Ok clean_template)
    by (vm_compute; reflexivity).
  rewrite Htpl. reflexivity.
Qed.

Lemma special_cases (c : N) :
  special c = (c =? 46) || ((c =? 42) || ((c =? 63) || ((c =? 40) || ((c =? 41)
               || ((c =? 91) || ((c =? 93) || ((c =? 43) || false))))))).
Proof. reflexivity. Qed.

(** At one position the pattern takes one character of [sp], which it
    marks as group 1, and nothing else. *)
Lemma clean_match (s : list N) (p : nat) (w : list N) (cp : Re.caps) (k : Re.K) :
  Re.sre_match s (Re.code clean_pattern) p w cp k
  = match w with
    | c :: w' => if special c then k (S p) w' ((1%nat, (p, S p)) :: cp) else None
    | [] => None
    end.
Proof.
  destruct w as [|c w]; [reflexivity|]. rewrite special_cases.
  cbn [clean_pattern Re.code Re.sre_match].
  destruct (k (S p) w ((1%nat, (p, S p)) :: cp));
    destruct (c =? 46), (c =? 42), (c =? 63), (c =? 40), (c =? 41), (c =? 91),
      (c =? 93), (c =? 43); reflexivity.
Qed.

Lemma scan_clean_none (s u : list N) :
  Forall (fun c => special c = false) u ->
  forall adv p, Re.scan s (Re.code clean_pattern) adv p u = None.
Proof.
  induction 1 as [|a u Ha _ IH]; intros adv p; cbn [Re.scan]; rewrite clean_match.
  - reflexivity.
  - rewrite Ha. apply IH.
Qed.

Lemma scan_clean_some (s u w : list N) (c : N) :
  Forall (fun c => special c = false) u -> special c = true ->
  forall adv p,
    Re.scan s (Re.code clean_pattern) adv p (u ++ c :: w)
    = Some ((p + length u)%nat, S (p + length u), [(1%nat, ((p + length u)%nat, S (p + length u)))]).
Proof.
  intros Hu Hc. induction Hu as [|a u Ha _ IH]; intros adv p; cbn [Re.scan app];
    rewrite clean_match.
  - rewrite Hc. replace (S p =? p)%nat with false by (symmetry; apply Nat.eqb_neq; lia).
    rewrite andb_false_r. simpl length. now rewrite Nat.add_0_r.
  - rewrite Ha, IH. simpl length. now rewrite Nat.add_succ_r.
Qed.

Lemma nonspecial_prefix (w : list N) :
  exists u rest, w = u ++ rest /\ Forall (fun c => special c = false) u
                 /\ match rest with [] => True | c :: _ => special c = true end.
Proof.
  induction w as [|a w (u & rest & -> & Hu & Hrest)].
  - exists [], []. repeat split. constructor.
  - destruct (special a) eqn:Ha.
    + exists [], (a :: u ++ rest). repeat split; [constructor|assumption].
    + exists (a :: u), rest. repeat split; [constructor; assumption|assumption].
Qed.

Lemma escape_app (u v : list N) : escape (u ++ v) = escape u ++ escape v.
Proof. unfold escape. apply flat_map_app. Qed.

Lemma escape_nonspecial (u : list N) :
  Forall (fun c => special c = false) u -> escape u = u.
Proof.
  induction 1 as [|a u Ha _ IH]; [reflexivity|].
  unfold escape in *. simpl. unfold escape_char at 1. rewrite Ha. simpl. now rewrite IH.
Qed.

Lemma between_app_middle (pre u post : list N) :
  Re.between (pre ++ u ++ post) (length pre) (length pre + length u) = u.
Proof.
  unfold Re.between. rewrite skipn_app, skipn_all, Nat.sub_diag, skipn_O. cbn [app].
  replace (length pre + length u - length pre)%nat with (length u) by lia.
  now rewrite firstn_app, Nat.sub_diag, firstn_all, app_nil_r.
Qed.

Lemma sub_loop_clean (fuel : nat) : forall (pre w : list N) adv,
  (length w < fuel)%nat ->
  Re.sub_loop fuel clean_pattern clean_template (pre ++ w) (length pre) (length pre) adv
  = escape w.
Proof.
  induction fuel as [|fuel IH]; intros pre w adv Hfuel; [lia|].
  cbn [Re.sub_loop]. unfold Re.search_from.
  rewrite skipn_app, skipn_all, Nat.sub_diag, skipn_O. cbn [app].
  destruct (nonspecial_prefix w) as (u & rest & -> & Hu & Hrest).
  destruct rest as [|c w'].
  - rewrite app_nil_r in *. rewrite scan_clean_none by assumption.
    now rewrite escape_nonspecial.
  - rewrite scan_clean_some by assumption. cbn [Re.m_start Re.m_end].
    rewrite escape_app, escape_nonspecial by assumption.
    change (u ++ c :: w') with (u ++ [c] ++ w').
    rewrite (between_app_middle pre u ([c] ++ w')). f_equal.
    unfold Re.expand, clean_template, Re.group_n. cbn [flat_map Re.m_marks Re.get_mark Nat.eqb].
    cbn [Re.m_string].
    replace (Re.between (pre ++ u ++ [c] ++ w') (length pre + length u)
               (S (length pre + length u))) with [c].
    2:{ rewrite (app_assoc pre u). rewrite <- length_app.
        replace (S (length (pre ++ u))) with (length (pre ++ u) + length [c])%nat
          by (simpl; lia).
        now rewrite between_app_middle. }
    cbn [default app]. unfold escape. cbn [flat_map]. unfold escape_char at 1.
    rewrite Hrest. cbn [app]. do 2 f_equal. change (flat_map escape_char w') with (escape w').
    replace (pre ++ u ++ c :: w') with ((pre ++ u ++ [c]) ++ w')
      by (now rewrite <- !app_assoc).
    replace (S (length pre + length u)) with (length (pre ++ u ++ [c]))
      by (rewrite !length_app; simpl; lia).
    apply IH. rewrite length_app in Hfuel. simpl in Hfuel. lia.
Qed.

(** [clean_wildcard] never raises: it puts a backslash in front of the
    characters of [sp] and leaves the others as they are. *)
Lemma clean_wildcard_escape (x : list N) : clean_wildcard x = Ok (escape x).
Proof.
  rewrite clean_wildcard_unfold. f_equal.
  apply (sub_loop_clean _ [] x false). lia.
Qed.

(** ** Parsing the patterns the code builds *)

Lemma plain_char_cases (c : N) :
  plain_char c = negb ((c =? 92) || ((c =? 94) || ((c =? 36) || ((c =? 123)
                       || ((c =? 124) || false))))).
Proof. reflexivity. Qed.

Lemma _parse_Esc n src st sub c :
  Re.next src = Some (Re.Esc c) ->
  Re._parse (S n) src st sub
  = let* src1 := Re.sourceget src in
    let* (code, src2) := Re._escape src1 c st in
    Re._parse n src2 st (sub ++ [code]).
Proof. intros H. cbn [Re._parse]. rewrite H. reflexivity. Qed.

Lemma _parse_Chr n src st sub c :
  Re.next src = Some (Re.Chr c) ->
  Re.char_in c "|)" = false ->
  Re.char_in c Re.SPECIAL_CHARS = false ->
  Re._parse (S n) src st sub
  = let* src1 := Re.sourceget src in Re._parse n src1 st (sub ++ [Re.LITERAL c]).
Proof. intros H H1 H2. cbn [Re._parse]. rewrite H, H1, H2. reflexivity. Qed.

Lemma _parse_end n st sub :
  Re._parse (S n) {| Re.next := None; Re.rest := [] |} st sub
  = Ok (sub, {| Re.next := None; Re.rest := [] |}, st).
Proof. reflexivity. Qed.

Lemma _escape_special src c st :
  special c = true -> Re._escape src c st = Ok (Re.LITERAL c, src).
Proof.
  rewrite special_cases. intros H.
  repeat (apply orb_prop in H as [H|H]; [apply N.eqb_eq in H; subst c; reflexivity|]).
  discriminate.
Qed.

Lemma unsnoc_snoc {A} (l : list A) (x : A) : Re.unsnoc (l ++ [x]) = Some (l, x).
Proof. unfold Re.unsnoc. rewrite rev_app_distr. simpl. now rewrite rev_involutive. Qed.

(** One character of a plain fragment, escaped or not, is one literal. *)
Lemma parse_escaped_char (c : N) (rest : list N) (src1 : Re.source) :
  plain_char c = true ->
  Re.tokenizer_next rest = Ok src1 ->
  exists src0,
    Re.tokenizer_next (escape_char c ++ rest) = Ok src0
    /\ quiet src0
    /\ forall n st sub,
        Re._parse (S n) src0 st sub = Re._parse n src1 st (sub ++ [Re.LITERAL c]).
Proof.
  intros Hp Hrest. unfold escape_char. destruct (special c) eqn:Hs.
  - exists {| Re.next := Some (Re.Esc c); Re.rest := rest |}.
    split; [reflexivity|]. split; [split; reflexivity|].
    intros n st sub.
    rewrite (_parse_Esc n {| Re.next := Some (Re.Esc c); Re.rest := rest |} st sub c eq_refl).
    unfold Re.sourceget. cbn [Re.rest]. rewrite Hrest. cbn [bind].
    rewrite (_escape_special _ _ _ Hs). reflexivity.
  - rewrite plain_char_cases in Hp. apply negb_true_iff in Hp.
    rewrite special_cases in Hs.
    repeat match goal with
           | H : (_ || _) = false |- _ => apply orb_false_elim in H as [? H]
           end.
    exists {| Re.next := Some (Re.Chr c); Re.rest := rest |}.
    assert (Htok : Re.tokenizer_next ([c] ++ rest)
                   = Ok {| Re.next := Some (Re.Chr c); Re.rest := rest |}).
    { cbn [app Re.tokenizer_next]. change (Re.ch "\") with 92.
      now replace (c =? 92) with false. }
    split; [exact Htok|]. split.
    { split; unfold Re.next_is; cbn [Re.next]; [change (Re.ch "?") with 63
                                                |change (Re.ch "+") with 43];
        assumption. }
    intros n st sub.
    rewrite (_parse_Chr n {| Re.next := Some (Re.Chr c); Re.rest := rest |} st sub c eq_refl).
    + unfold Re.sourceget. cbn [Re.rest]. rewrite Hrest. reflexivity.
    + change (Re.char_in c "|)") with ((c =? 124) || ((c =? 41) || false)).
      now repeat match goal with H : (c =? _) = false |- _ => rewrite H; clear H end.
    + change (Re.char_in c Re.SPECIAL_CHARS)
        with ((c =? 46) || ((c =? 92) || ((c =? 91) || ((c =? 123) || ((c =? 40)
              || ((c =? 41) || ((c =? 42) || ((c =? 43) || ((c =? 63) || ((c =? 94)
              || ((c =? 36) || ((c =? 124) || false)))))))))))).
      now repeat match goal with H : (c =? _) = false |- _ => rewrite H; clear H end.
Qed.

(** A plain fragment, escaped, is the sequence of its characters. *)
Lemma parse_fragment (f rest : list N) (src1 : Re.source) :
  plain f ->
  Re.tokenizer_next rest = Ok src1 ->
  quiet src1 ->
  exists src0,
    Re.tokenizer_next (escape f ++ rest) = Ok src0
    /\ quiet src0
    /\ forall n st sub,
        Re._parse (length f + n) src0 st sub = Re._parse n src1 st (sub ++ map Re.LITERAL f).
Proof.
  intros Hf Hrest Hq. induction Hf as [|c f Hc _ (src & Htok & Hquiet & Hparse)].
  - exists src1. split; [exact Hrest|]. split; [exact Hq|].
    intros n st sub. simpl. now rewrite app_nil_r.
  - destruct (parse_escaped_char c (escape f ++ rest) src Hc Htok)
      as (src0 & Htok0 & Hquiet0 & Hparse0).
    exists src0. unfold escape at 1. cbn [flat_map]. rewrite <- app_assoc.
    split; [exact Htok0|]. split; [exact Hquiet0|].
    intros n st sub. cbn [length Nat.add map]. rewrite Hparse0, Hparse.
    now rewrite <- app_assoc.
Qed.

Lemma step_class n c r st sub item src' :
  (forall src, Re._escape src c st = Ok (item, src)) ->
  Re.tokenizer_next r = Ok src' ->
  Re._parse (S n) {| Re.next := Some (Re.Esc c); Re.rest := r |} st sub
  = Re._parse n src' st (sub ++ [item]).
Proof.
  intros Hesc Htok.
  rewrite (_parse_Esc n {| Re.next := Some (Re.Esc c); Re.rest := r |} st sub c eq_refl).
  unfold Re.sourceget. cbn [Re.rest]. rewrite Htok. cbn [bind]. now rewrite Hesc.
Qed.

Lemma _parse_quantifier n src st sub c :
  Re.next src = Some (Re.Chr c) ->
  Re.char_in c "*+?" = true ->
  Re._parse (S n) src st sub
  = let* src1 := Re.sourceget src in
    let* bounds := Re.repeat_bounds c src1 in
    match bounds with
    | None => Re._parse n src1 st (sub ++ [Re.LITERAL c])
    | Some (min, max, src2) =>
        match Re.unsnoc sub with
        | None => Raise re_error
        | Some (_, Re.AT _) => Raise re_error
        | Some (_, Re.REPEAT _ _ _ _) => Raise re_error
        | Some (before, item) =>
            let* (lazy, src3) := Re.sourcematch (Re.ch "?") src2 in
            if lazy then Re._parse n src3 st (before ++ [Re.REPEAT false min max item])
            else if Re.next_is (Re.ch "+") src3 then OutOfModel
            else Re._parse n src3 st (before ++ [Re.REPEAT true min max item])
        end
    end.
Proof.
  intros H Hc. cbn [Re._parse]. rewrite H.
  change (Re.char_in c "*+?") with ((c =? 42) || ((c =? 43) || ((c =? 63) || false))) in Hc.
  repeat (apply orb_prop in Hc as [Hc|Hc]; [apply N.eqb_eq in Hc; subst c; reflexivity|]).
  discriminate.
Qed.

Lemma step_greedy n c lo r st sub negate items src' :
  (c = 42 /\ lo = 0) \/ (c = 43 /\ lo = 1) ->
  Re.tokenizer_next r = Ok src' ->
  quiet src' ->
  Re._parse (S n) {| Re.next := Some (Re.Chr c); Re.rest := r |} st
    (sub ++ [Re.IN negate items])
  = Re._parse n src' st (sub ++ [Re.REPEAT true lo None (Re.IN negate items)]).
Proof.
  intros Hc Htok [Hq1 Hq2].
  rewrite (_parse_quantifier n {| Re.next := Some (Re.Chr c); Re.rest := r |} st _ c eq_refl)
    by (destruct Hc as [[-> _]|[-> _]]; reflexivity).
  unfold Re.sourceget. cbn [Re.rest]. rewrite Htok. cbn [bind].
  replace (Re.repeat_bounds c src') with (Ok (A := option (N * option N * Re.source))
                                            (Some (lo, None, src')))
    by (destruct Hc as [[-> ->]|[-> ->]]; reflexivity).
  cbn [bind]. rewrite unsnoc_snoc. unfold Re.sourcematch. rewrite Hq1. cbn [bind].
  now rewrite Hq2.
Qed.

Lemma step_lazy_plus n r r' st sub negate items src' :
  Re.tokenizer_next r = Ok {| Re.next := Some (Re.Chr 63); Re.rest := r' |} ->
  Re.tokenizer_next r' = Ok src' ->
  Re._parse (S n) {| Re.next := Some (Re.Chr 43); Re.rest := r |} st
    (sub ++ [Re.IN negate items])
  = Re._parse n src' st (sub ++ [Re.REPEAT false 1 None (Re.IN negate items)]).
Proof.
  intros Htok Htok'.
  rewrite (_parse_quantifier n {| Re.next := Some (Re.Chr 43); Re.rest := r |} st _ 43 eq_refl)
    by reflexivity.
  unfold Re.sourceget. cbn [Re.rest]. rewrite Htok. cbn [bind].
  change (Re.repeat_bounds 43 {| Re.next := Some (Re.Chr 63); Re.rest := r' |})
    with (Ok (A := option (N * option N * Re.source))
            (Some (1, None, {| Re.next := Some (Re.Chr 63); Re.rest := r' |}))).
  cbn [bind]. rewrite unsnoc_snoc. unfold Re.sourcematch, Re.sourceget.
  change (Re.next_is (Re.ch "?") {| Re.next := Some (Re.Chr 63); Re.rest := r' |}) with true.
  cbn [Re.rest]. rewrite Htok'. reflexivity.
Qed.

(** A wildcard in front of [rest] is three items, whatever comes before
    it. *)
Lemma parse_wildcard (greedy : bool) (rest : list N) (src1 : Re.source) :
  Re.tokenizer_next rest = Ok src1 ->
  quiet src1 ->
  exists src0,
    Re.tokenizer_next (wildcard greedy ++ rest) = Ok src0
    /\ quiet src0
    /\ forall n st sub,
        Re._parse (6 + n) src0 st sub = Re._parse n src1 st (sub ++ wildcard_items greedy).
Proof.
  intros Htok Hq.
  exists {| Re.next := Some (Re.Esc 115);
            Re.rest := (if greedy then py "*\S+\s*" else py "*\S+?\s*") ++ rest |}.
  split; [destruct greedy; reflexivity|]. split; [split; reflexivity|].
  intros n st sub. cbn [Nat.add].
  assert (Hs : forall src, Re._escape src 115 st = Ok (SPACE, src)) by reflexivity.
  assert (HS : forall src, Re._escape src 83 st = Ok (NOT_SPACE, src)) by reflexivity.
  assert (Hlast : forall g, Re._parse (S (S n))
                    {| Re.next := Some (Re.Esc 115); Re.rest := py "*" ++ rest |} st
                    ((sub ++ [Re.REPEAT true 0 None SPACE])
                     ++ [Re.REPEAT g 1 None NOT_SPACE])
                  = Re._parse n src1 st (sub ++ wildcard_items g)).
  { intros g. erewrite step_class; [|exact Hs|reflexivity].
    unfold SPACE at 2. erewrite step_greedy; [|left; split; reflexivity|exact Htok|exact Hq].
    now rewrite <- !app_assoc. }
  destruct greedy.
  - erewrite step_class; [|exact Hs|reflexivity].
    unfold SPACE at 1.
    erewrite step_greedy; [|left; split; reflexivity|reflexivity|split; reflexivity].
    erewrite step_class; [|exact HS|reflexivity].
    unfold NOT_SPACE at 1.
    erewrite step_greedy; [|right; split; reflexivity|reflexivity|split; reflexivity].
    apply Hlast.
  - erewrite step_class; [|exact Hs|reflexivity].
    unfold SPACE at 1.
    erewrite step_greedy; [|left; split; reflexivity|reflexivity|split; reflexivity].
    erewrite step_class; [|exact HS|reflexivity].
    unfold NOT_SPACE at 1.
    erewrite step_lazy_plus; [|reflexivity|reflexivity]. apply Hlast.
Qed.

Lemma parse_joined (greedy : bool) (frags : list (list N)) :
  Forall plain frags ->
  exists src0,
    Re.tokenizer_next (Py.join (wildcard greedy) (map escape frags)) = Ok src0
    /\ quiet src0
    /\ forall n st sub,
        Re._parse (steps_of frags + S n) src0 st sub
        = Ok (sub ++ pattern_items greedy frags, end_of_pattern, st).
Proof.
  assert (Hend : quiet end_of_pattern) by (split; reflexivity).
  induction 1 as [|f frags Hf Hfrags (src2 & Htok2 & Hq2 & Hparse2)].
  - exists end_of_pattern. split; [reflexivity|]. split; [exact Hend|].
    intros n st sub. simpl. now rewrite app_nil_r.
  - destruct frags as [|f2 l].
    + destruct (parse_fragment f [] end_of_pattern Hf eq_refl Hend)
        as (src0 & Htok0 & Hq0 & Hparse0).
      rewrite app_nil_r in Htok0.
      exists src0. split; [exact Htok0|]. split; [exact Hq0|].
      intros n st sub. cbn [steps_of pattern_items]. rewrite Hparse0. reflexivity.
    + destruct (parse_wildcard greedy _ src2 Htok2 Hq2) as (src1 & Htok1 & Hq1 & Hparse1).
      destruct (parse_fragment f _ src1 Hf Htok1 Hq1) as (src0 & Htok0 & Hq0 & Hparse0).
      exists src0. split; [exact Htok0|]. split; [exact Hq0|].
      intros n st sub.
      change (steps_of (f :: f2 :: l)) with (length f + (6 + steps_of (f2 :: l)))%nat.
      change (pattern_items greedy (f :: f2 :: l))
        with (map Re.LITERAL f ++ wildcard_items greedy ++ pattern_items greedy (f2 :: l)).
      rewrite <- !Nat.add_assoc, Hparse0, Hparse1, Hparse2.
      now rewrite <- !app_assoc.
Qed.

Lemma escape_length (f : list N) : (length f <= length (escape f))%nat.
Proof.
  induction f as [|c f IH]; [reflexivity|].
  unfold escape in *. cbn [flat_map]. rewrite length_app. unfold escape_char at 1.
  destruct (special c); simpl; lia.
Qed.

Lemma steps_of_le (greedy : bool) (frags : list (list N)) :
  (steps_of frags <= length (Py.join (wildcard greedy) (map escape frags)))%nat.
Proof.
  induction frags as [|f frags IH]; [reflexivity|].
  destruct frags as [|f2 l].
  - apply escape_length.
  - change (steps_of (f :: f2 :: l)) with (length f + (6 + steps_of (f2 :: l)))%nat.
    change (Py.join (wildcard greedy) (map escape (f :: f2 :: l)))
      with (escape f ++ wildcard greedy ++ Py.join (wildcard greedy) (map escape (f2 :: l))).
    rewrite !length_app. pose proof (escape_length f).
    assert (6 <= length (wildcard greedy))%nat by (destruct greedy; simpl; lia).
    lia.
Qed.

(** The pattern built from plain fragments compiles, to its items in
    sequence. *)
Lemma compile_joined (greedy : bool) (frags : list (list N)) :
  Forall plain frags ->
  Re.compile (Py.join (wildcard greedy) (map escape frags))
  = Ok {| Re.code := Re.seq_of (pattern_items greedy frags); Re.ngroups := 0 |}.
Proof.
  intros H. destruct (parse_joined greedy frags H) as (src0 & Htok & _ & Hparse).
  unfold Re.compile, Re.Tokenizer. rewrite Htok. cbn [bind].
  pose proof (steps_of_le greedy frags) as Hle.
  set (pattern := Py.join _ _) in *.
  replace (2 * length pattern + 2)%nat
    with (S (steps_of frags + S (2 * length pattern - steps_of frags))) by lia.
  cbn [Re._parse_sub]. rewrite Hparse. reflexivity.
Qed.

(** ** The strings such a pattern matches *)

Lemma lang_seq_app (l1 l2 : list Re.regex) (u : list N) :
  lang (Re.seq_of (l1 ++ l2)) u ->
  exists u1 u2, u = u1 ++ u2 /\ lang (Re.seq_of l1) u1 /\ lang (Re.seq_of l2) u2.
Proof.
  revert u. induction l1 as [|r l1 IH]; intros u; simpl.
  - intros H. exists [], u. auto.
  - intros (v & w & -> & Hv & Hw). apply IH in Hw as (w1 & w2 & -> & Hw1 & Hw2).
    exists (v ++ w1), w2. rewrite <- app_assoc. eauto 10.
Qed.

Lemma lang_literals (f u : list N) : lang (Re.seq_of (map Re.LITERAL f)) u -> u = f.
Proof.
  revert u. induction f as [|c f IH]; intros u; simpl; [auto|].
  intros (v & w & -> & -> & Hw). simpl. f_equal. now apply IH.
Qed.

Lemma lang_pattern_items (greedy : bool) (frags : list (list N)) : forall u,
  lang (Re.seq_of (pattern_items greedy frags)) u ->
  exists gaps, length gaps = Nat.pred (length frags) /\ Forall is_gap gaps
               /\ u = interleave frags gaps.
Proof.
  induction frags as [|f frags IH]; intros u.
  - simpl. intros ->. exists []. repeat split. constructor.
  - destruct frags as [|f2 l].
    + intros H. apply lang_literals in H as ->. exists []. repeat split. constructor.
    + change (pattern_items greedy (f :: f2 :: l))
        with (map Re.LITERAL f ++ wildcard_items greedy ++ pattern_items greedy (f2 :: l)).
      intros H. apply lang_seq_app in H as (u1 & u2 & -> & H1 & H2).
      apply lang_literals in H1 as ->.
      apply (lang_connector greedy (Re.seq_of (pattern_items greedy (f2 :: l)))) in H2
        as (g & v & -> & Hg & Hv).
      apply IH in Hv as (gaps & Hlen & Hgaps & ->).
      exists (g :: gaps). split; [simpl in *; lia|]. split; [constructor; assumption|].
      reflexivity.
Qed.

Lemma interleave_snoc (frags : list (list N)) : forall gaps f g,
  (length gaps + 1 = length frags)%nat ->
  interleave (frags ++ [f]) (gaps ++ [g]) = interleave frags gaps ++ g ++ f.
Proof.
  induction frags as [|f1 frags IH]; intros gaps f g Hlen; [simpl in Hlen; lia|].
  destruct frags as [|f2 l].
  - destruct gaps; [reflexivity|simpl in Hlen; lia].
  - destruct gaps as [|g1 gaps]; [simpl in Hlen; lia|].
    change (interleave ((f1 :: f2 :: l) ++ [f]) ((g1 :: gaps) ++ [g]))
      with (f1 ++ g1 ++ interleave ((f2 :: l) ++ [f]) (gaps ++ [g])).
    rewrite IH by (simpl in *; lia).
    change (interleave (f1 :: f2 :: l) (g1 :: gaps))
      with (f1 ++ g1 ++ interleave (f2 :: l) gaps).
    now rewrite <- !app_assoc.
Qed.

Lemma rev_interleave (frags : list (list N)) : forall gaps,
  (length gaps + 1 = length frags)%nat ->
  rev (interleave frags gaps) = interleave (map (@rev N) (rev frags)) (map (@rev N) (rev gaps)).
Proof.
  induction frags as [|f1 frags IH]; intros gaps Hlen; [simpl in Hlen; lia|].
  destruct frags as [|f2 l].
  - destruct gaps; [reflexivity|simpl in Hlen; lia].
  - destruct gaps as [|g1 gaps]; [simpl in Hlen; lia|].
    change (interleave (f1 :: f2 :: l) (g1 :: gaps))
      with (f1 ++ g1 ++ interleave (f2 :: l) gaps).
    rewrite !rev_app_distr, IH by (simpl in *; lia).
    change (rev (f1 :: f2 :: l)) with (rev (f2 :: l) ++ [f1]).
    change (rev (g1 :: gaps)) with (rev gaps ++ [g1]).
    rewrite !map_app. cbn [map].
    rewrite interleave_snoc by (rewrite !length_map, !length_rev; simpl in *; lia).
    now rewrite <- !app_assoc.
Qed.

Lemma map_rev_rev (l : list (list N)) : map (@rev N) (rev (map (@rev N) (rev l))) = l.
Proof.
  rewrite map_rev, map_map.
  rewrite (map_ext (fun x => rev (rev x)) (fun x => x)) by (intros; apply rev_involutive).
  rewrite map_id. apply rev_involutive.
Qed.

Lemma is_gap_rev (g : list N) : is_gap g -> is_gap (rev g).
Proof.
  intros (a & b & c & -> & Ha & Hb & Hnb & Hc).
  exists (rev c), (rev b), (rev a). rewrite !rev_app_distr, <- app_assoc.
  repeat apply conj; auto using all_space_rev, no_space_rev.
  intros E. apply Hb. apply (f_equal (@rev N)) in E. now rewrite rev_involutive in E.
Qed.

Lemma Forall_is_gap_rev (gaps : list (list N)) :
  Forall is_gap gaps -> Forall is_gap (map (@rev N) (rev gaps)).
Proof.
  intros H. apply List.Forall_map, List.Forall_rev.
  eapply List.Forall_impl; [|exact H]. apply is_gap_rev.
Qed.

Lemma lstrip_starts_clean (l : list N) : starts_clean (Py.lstrip l).
Proof.
  induction l as [|c l IH]; simpl; [exact I|].
  destruct (Py.isspace c) eqn:E; [exact IH|exact E].
Qed.

Lemma lstrip_clean (t : list N) : starts_clean t -> Py.lstrip t = t.
Proof. destruct t as [|c t]; simpl; [reflexivity|]. now intros ->. Qed.

Lemma lstrip_snoc_no_space (l : list N) (c : N) :
  Py.isspace c = false -> Py.lstrip (l ++ [c]) = Py.lstrip l ++ [c].
Proof.
  intros Hc. induction l as [|a l IH]; simpl; [now rewrite Hc|].
  destruct (Py.isspace a); [exact IH|reflexivity].
Qed.

Lemma strip_starts_clean (f : list N) : starts_clean (Py.strip f).
Proof.
  unfold Py.strip. pose proof (lstrip_starts_clean f) as H.
  destruct (Py.lstrip f) as [|c l]; [exact I|].
  unfold Py.rstrip. simpl rev. rewrite lstrip_snoc_no_space by exact H.
  rewrite rev_app_distr. exact H.
Qed.

Lemma strip_ends_clean (f : list N) : ends_clean (Py.strip f).
Proof.
  unfold ends_clean, Py.strip, Py.rstrip. rewrite rev_involutive.
  apply lstrip_starts_clean.
Qed.

(** Trimming the fragments with their gaps on the left only shortens the
    first gap. *)
Lemma lstrip_interleave (T G : list (list N)) :
  (length G + 1 = length T)%nat -> Forall is_gap G -> Forall starts_clean T ->
  exists G', length G' = length G /\ Forall is_gap G'
             /\ Py.lstrip (interleave T G) = interleave T G'.
Proof.
  intros Hlen HG HT. destruct T as [|t T]; [simpl in Hlen; lia|].
  inversion HT as [|? ? Ht _]; subst. destruct T as [|t2 l].
  - destruct G; [|simpl in Hlen; lia]. exists []. simpl. auto using lstrip_clean.
  - destruct G as [|g G]; [simpl in Hlen; lia|].
    change (interleave (t :: t2 :: l) (g :: G)) with (t ++ g ++ interleave (t2 :: l) G).
    destruct t as [|c t].
    + inversion HG as [|? ? (a & b & c & -> & Ha & Hb & Hnb & Hc) HG']; subst.
      exists ((b ++ c) :: G). split; [reflexivity|]. split.
      * constructor; [|assumption]. exists [], b, c. repeat apply conj; auto. constructor.
      * cbn [app]. rewrite <- !app_assoc. rewrite lstrip_all_space by assumption.
        change (interleave ([] :: t2 :: l) ((b ++ c) :: G))
          with ((b ++ c) ++ interleave (t2 :: l) G).
        rewrite <- !app_assoc. apply lstrip_clean.
        destruct b as [|d b]; [congruence|]. inversion Hnb; subst. assumption.
    + exists (g :: G). split; [reflexivity|]. split; [assumption|].
      apply lstrip_clean. exact Ht.
Qed.

(** Trimming on both sides only shortens the first and the last gap: the
    trimmed fragments stay, in their order, with a gap between any two
    of them. *)
Lemma strip_interleave (T G : list (list N)) :
  (length G + 1 = length T)%nat -> Forall is_gap G ->
  Forall starts_clean T -> Forall ends_clean T ->
  exists G', length G' = length G /\ Forall is_gap G'
             /\ Py.strip (interleave T G) = interleave T G'.
Proof.
  intros Hlen HG Hs He.
  destruct (lstrip_interleave T G Hlen HG Hs) as (G1 & Hlen1 & HG1 & E1).
  unfold Py.strip, Py.rstrip. rewrite E1, rev_interleave by lia.
  destruct (lstrip_interleave (map (@rev N) (rev T)) (map (@rev N) (rev G1)))
    as (G2 & Hlen2 & HG2 & E2).
  - rewrite !length_map, !length_rev. lia.
  - now apply Forall_is_gap_rev.
  - apply List.Forall_map, List.Forall_rev. exact He.
  - rewrite E2. rewrite !length_map, !length_rev in Hlen2.
    rewrite rev_interleave by (rewrite !length_map, !length_rev; lia).
    rewrite map_rev_rev. exists (map (@rev N) (rev G2)).
    split; [rewrite !length_map, !length_rev; lia|].
    split; [now apply Forall_is_gap_rev|reflexivity].
Qed.

(** ** The patterns of plain fragments *)

Lemma mapM_clean (g : list N -> list N) (items : list (list N)) :
  mapM (fun item => clean_wildcard (g item)) items
  = Ok (map (fun item => escape (g item)) items).
Proof.
  induction items as [|x items IH]; [reflexivity|].
  cbn [mapM map]. rewrite clean_wildcard_escape, IH. reflexivity.
Qed.

Lemma forward_pattern_eq (span unk : list N) (frags : list (list N)) :
  Py.split span unk = Ok frags ->
  forward_pattern span unk = Ok (Py.join (wildcard true) (map escape (map Py.strip frags))).
Proof.
  intros H. unfold forward_pattern. rewrite H. cbn [bind].
  rewrite (mapM_clean Py.strip). cbn [bind]. now rewrite map_map.
Qed.

Lemma reverse_pattern_eq (span unk : list N) (frags : list (list N)) :
  Py.split span unk = Ok frags ->
  reverse_pattern span unk
  = Ok (Py.join (wildcard false)
          (map escape (rev (map (fun f => rev (Py.strip f)) frags)))).
Proof.
  intros H. unfold reverse_pattern. rewrite H. cbn [bind].
  rewrite (mapM_clean (fun item => rev (Py.strip item))). cbn [bind].
  now rewrite <- !map_rev, map_map.
Qed.

Lemma plain_lstrip (f : list N) : plain f -> plain (Py.lstrip f).
Proof.
  induction 1 as [|c f Hc Hf IH]; simpl; [constructor|].
  destruct (Py.isspace c); [exact IH|constructor; assumption].
Qed.

Lemma plain_rev (f : list N) : plain f -> plain (rev f).
Proof. apply List.Forall_rev. Qed.

Lemma plain_strip (f : list N) : plain f -> plain (Py.strip f).
Proof.
  intros H. unfold Py.strip, Py.rstrip.
  apply plain_rev, plain_lstrip, plain_rev, plain_lstrip, H.
Qed.

(** A match of the pattern of plain fragments is the fragments with a gap
    between any two of them. *)
Lemma search_joined (greedy : bool) (F : list (list N)) (s : list N) (m : Re.Match) :
  Forall plain F ->
  Re.search (Py.join (wildcard greedy) (map escape F)) s = Ok (Some m) ->
  exists gaps, length gaps = Nat.pred (length F) /\ Forall is_gap gaps
               /\ Re.group m = interleave F gaps.
Proof.
  intros HF. unfold Re.search. rewrite (compile_joined greedy F HF). cbn [bind].
  unfold Re.search_from. cbn [Re.code]. rewrite skipn_O.
  destruct (Re.scan _ _ _ _ _) as [[[b e] c]|] eqn:E; [|discriminate].
  intros [= <-]. apply scan_sound in E as (pre & u & post & -> & Hu & -> & ->).
  apply lang_pattern_items in Hu as (gaps & Hlen & Hgaps & ->).
  exists gaps. split; [exact Hlen|]. split; [exact Hgaps|].
  unfold Re.group. cbn [Re.m_string Re.m_start Re.m_end Nat.add].
  apply between_app_middle.
Qed.

Lemma search_joined_completes (greedy : bool) (F : list (list N)) (s : list N) :
  Forall plain F ->
  exists result, Re.search (Py.join (wildcard greedy) (map escape F)) s = Ok result.
Proof.
  intros HF. unfold Re.search. rewrite (compile_joined greedy F HF). cbn [bind]. eauto.
Qed.

Lemma split_go_nonempty (sep s : list N) : forall skip cur, Py.split_go sep s skip cur <> [].
Proof.
  induction s as [|c s IH]; intros skip cur; simpl; [discriminate|].
  destruct skip; [|apply IH]. destruct (Py.startswith sep (c :: s)); [discriminate|apply IH].
Qed.

Lemma split_nonempty (span unk : list N) (frags : list (list N)) :
  Py.split span unk = Ok frags -> (1 <= length frags)%nat.
Proof.
  unfold Py.split. destruct unk; [discriminate|]. intros [= <-].
  pose proof (split_go_nonempty (n :: unk) span 0 []) as H.
  destruct (Py.split_go _ _ _ _); [congruence|simpl; lia].
Qed.

(** ** What holds of spans with plain fragments

    Where no fragment holds a character that [clean_wildcard] leaves
    unescaped, both patterns compile: the recovery returns, the forward
    search changes nothing, and a reverse search without a match gives
    the span back. *)

Lemma plain_forward_search_returns (span text unk : list N) (frags : list (list N)) :
  Py.split span unk = Ok frags -> Forall plain frags ->
  exists result, forward_search span text unk = Ok result.
Proof.
  intros Hsplit Hplain. unfold forward_search.
  rewrite (forward_pattern_eq _ _ _ Hsplit). cbn [bind].
  apply search_joined_completes, List.Forall_map.
  eapply List.Forall_impl; [|exact Hplain]. apply plain_strip.
Qed.

Lemma plain_span_forward_irrelevant (span text unk : list N) (frags : list (list N)) :
  Py.split span unk = Ok frags -> Forall plain frags ->
  fix_unk_from_text_without_tokenizer span text unk = fix_unk_reverse_only span text unk.
Proof.
  intros Hsplit Hplain.
  destruct (plain_forward_search_returns span text unk frags Hsplit Hplain) as [m Hm].
  now apply forward_search_irrelevant_when_it_returns with m.
Qed.

Lemma reverse_only_eq (span text unk : list N) :
  fix_unk_reverse_only span text unk
  = if negb (Py.contains unk span) then Ok span
    else
      let* q := reverse_pattern span unk in
      let* result_reversed := Re.search q (rev text) in
      match result_reversed with
      | None => Ok span
      | Some m => Ok (Py.strip (rev (Re.group m)))
      end.
Proof.
  unfold fix_unk_reverse_only, reverse_pattern.
  destruct (negb (Py.contains unk span)); [reflexivity|].
  destruct (Py.split span unk); simpl; try reflexivity.
  destruct (mapM _ a); reflexivity.
Qed.

Lemma plain_span_returns (span text unk : list N) (frags : list (list N)) :
  Py.split span unk = Ok frags -> Forall plain frags ->
  exists r, fix_unk_from_text_without_tokenizer span text unk = Ok r.
Proof.
  intros Hsplit Hplain.
  rewrite (plain_span_forward_irrelevant _ _ _ _ Hsplit Hplain), reverse_only_eq.
  destruct (negb (Py.contains unk span)); [eauto|].
  rewrite (reverse_pattern_eq _ _ _ Hsplit). cbn [bind].
  destruct (search_joined_completes false
              (rev (map (fun f => rev (Py.strip f)) frags)) (rev text)) as [[m|] ->].
  - apply List.Forall_rev, List.Forall_map.
    eapply List.Forall_impl; [|exact Hplain]. intros f Hf. now apply plain_rev, plain_strip.
  - cbn [bind]. eauto.
  - cbn [bind]. eauto.
Qed.

Lemma fallback_when_forward_returns (span text unk : list N) m :
  forward_search span text unk = Ok m ->
  reverse_search span text unk = Ok None ->
  fix_unk_from_text_without_tokenizer span text unk = Ok span.
Proof.
  intros Hf Hr. rewrite (forward_search_irrelevant_when_it_returns _ _ _ _ Hf), reverse_only_eq.
  destruct (negb (Py.contains unk span)); [reflexivity|].
  unfold reverse_search in Hr. destruct (reverse_pattern span unk); cbn [bind] in *;
    try discriminate.
  now rewrite Hr.
Qed.

(** ** The order of the fragments *)

(** X16. For a span whose fragments hold none of the characters that
    [clean_wildcard] leaves unescaped, a result of the tokenizer-free
    recovery that differs from the span is made of the fragments, each
    trimmed of its surrounding whitespace, in their original order, with
    a gap between any two consecutive ones: optional whitespace, at least
    one character that is not whitespace, optional whitespace. *)
Theorem fragment_order (span text unk : list N) (frags : list (list N)) (r : list N) :
  Py.split span unk = Ok frags ->
  Forall plain frags ->
  fix_unk_from_text_without_tokenizer span text unk = Ok r ->
  r <> span ->
  exists gaps,
    (length gaps + 1 = length frags)%nat /\ Forall is_gap gaps
    /\ r = interleave (map Py.strip frags) gaps.
Proof.
  intros Hsplit Hplain H Hne. pose proof (split_nonempty _ _ _ Hsplit) as Hlen.
  rewrite without_tokenizer_eq in H.
  destruct (negb (Py.contains unk span)); [congruence|].
  rewrite (forward_pattern_eq _ _ _ Hsplit) in H. cbn [bind] in H.
  destruct (Re.search _ text); cbn [bind] in H; try discriminate.
  rewrite (reverse_pattern_eq _ _ _ Hsplit) in H. cbn [bind] in H.
  destruct (Re.search _ (rev text)) as [[m|]| |] eqn:Es; cbn [bind] in H;
    try discriminate; [|congruence].
  injection H as <-.
  apply search_joined in Es as (gaps & Hg & Hgaps & ->).
  2:{ apply List.Forall_rev, List.Forall_map.
      eapply List.Forall_impl; [|exact Hplain]. intros f Hf. now apply plain_rev, plain_strip. }
  rewrite length_rev, length_map in Hg.
  rewrite rev_interleave by (rewrite length_rev, length_map; lia).
  rewrite rev_involutive, map_map.
  rewrite (map_ext (fun x => rev (rev (Py.strip x))) Py.strip)
    by (intros; apply rev_involutive).
  destruct (strip_interleave (map Py.strip frags) (map (@rev N) (rev gaps)))
    as (G & HlenG & HG & ->).
  - rewrite !length_map, length_rev. lia.
  - now apply Forall_is_gap_rev.
  - apply List.Forall_map. apply List.Forall_forall. intros; apply strip_starts_clean.
  - apply List.Forall_map. apply List.Forall_forall. intros; apply strip_ends_clean.
  - exists G. rewrite !length_map, length_rev in HlenG.
    split; [lia|]. split; [exact HG|reflexivity].
Qed.

Lemma fragment_order_witness :
  exists gaps,
    (length gaps + 1 = length [py "Tar"; py " As"; []])%nat /\ Forall is_gap gaps
    /\ py "Tarō Asō" = interleave (map Py.strip [py "Tar"; py " As"; []]) gaps.
Proof.
  apply (fragment_order (py "Tar<unk> As<unk>") (py "The leader of Japan is Tarō Asō .")
           default_unk [py "Tar"; py " As"; []] (py "Tarō Asō")).
  - vm_compute. reflexivity.
  - repeat constructor.
  - vm_compute. reflexivity.
  - vm_compute. discriminate.
Defined.

(** C4. The fragment-order invariant fails where a fragment holds a
    character that [clean_wildcard] leaves unescaped.  The span
    [a|b<unk>c] has the fragments [a|b] and [c]; the bar, left as it is,
    makes both patterns alternations, and on the text [xa] the recovery
    returns [a]: a result that differs from the span and in which neither
    fragment occurs. *)
Theorem unescaped_bar_breaks_fragment_order :
  Py.split (py "a|b<unk>c") default_unk = Ok [py "a|b"; py "c"]
  /\ forward_pattern (py "a|b<unk>c") default_unk = Ok (py "a|b\s*\S+\s*c")
  /\ reverse_pattern (py "a|b<unk>c") default_unk = Ok (py "c\s*\S+?\s*b|a")
  /\ fix_unk_from_text_without_tokenizer (py "a|b<unk>c") (py "xa") default_unk
     = Ok (py "a")
  /\ py "a" <> py "a|b<unk>c"
  /\ Forall (fun f => Py.contains (Py.strip f) (py "a") = false) [py "a|b"; py "c"].
Proof.
  repeat apply conj; try (vm_compute; reflexivity).
  - vm_compute. discriminate.
  - repeat constructor.
Qed.

(** ** Spans without a placeholder *)

Lemma split_go_no_occurrence (unk : list N) : forall (s cur : list N) (i : Z),
  (0 <= i)%Z -> Py.find_from unk s i = (-1)%Z ->
  Py.split_go unk s 0 cur = [rev cur ++ s].
Proof.
  induction s as [|c s IH]; intros cur i Hi; simpl.
  - intros _. now rewrite app_nil_r.
  - destruct (Py.startswith unk (c :: s)); [lia|].
    intros H. rewrite (IH (c :: cur) (i + 1)%Z) by (lia || assumption).
    simpl. now rewrite <- app_assoc.
Qed.

Lemma split_no_occurrence (span unk : list N) :
  Py.contains unk span = false -> Py.split span unk = Ok [span].
Proof.
  unfold Py.contains, Py.find. intros H. apply negb_false_iff, Z.eqb_eq in H.
  unfold Py.split. destruct unk as [|c unk].
  - destruct span; discriminate.
  - now rewrite (split_go_no_occurrence _ _ [] 0%Z).
Qed.

(** The guard of line 109. *)
Lemma without_tokenizer_no_placeholder (span text unk : list N) :
  Py.contains unk span = false ->
  fix_unk_from_text_without_tokenizer span text unk = Ok span.
Proof. intros H. unfold fix_unk_from_text_without_tokenizer. now rewrite H. Qed.

(** C2, as the code has it.  For a span in which the placeholder does not
    occur: the tokenizer-free path returns the span; the
    tokenizer-assisted path returns the span when the sublist search
    finds no match; and when the span has no whitespace at its ends and
    none of the characters that [clean_wildcard] leaves unescaped, the
    tokenizer-assisted path returns nothing but the span. *)
Theorem placeholder_free_identity (span text unk : list N) :
  Py.contains unk span = false ->
  fix_unk_from_text span text unk None = Ok span
  /\ (forall t,
        match_sublist (encode t text).1 span (id2token_of t) = Ok None ->
        fix_unk_from_text span text unk (Some t) = Ok span)
  /\ (forall t r,
        plain span -> Py.strip span = span ->
        fix_unk_from_text span text unk (Some t) = Ok r -> r = span).
Proof.
  intros Hno. pose proof (without_tokenizer_no_placeholder span text unk Hno) as Hfree.
  split; [exact Hfree|]. split.
  - intros t Hm. simpl. now rewrite (with_tokenizer_no_match _ _ _ _ Hm).
  - intros t r Hplain Hstrip. simpl. unfold fix_unk_from_text_with_tokenizer.
    destruct (encode t text) as [tokenized_text offset_mapping].
    destruct (match_sublist _ _ _) as [[[|m0 ms]|]| |]; cbn [bind];
      try discriminate; try (rewrite Hfree; congruence).
    intros H. simpl in H. bind_cases H.
    match goal with E : Py.split span unk = Ok ?a |- _ =>
      rewrite (split_no_occurrence _ _ Hno) in E; injection E as <- end.
    match goal with E : mapM _ _ = Ok ?a |- _ =>
      rewrite (mapM_clean Py.strip) in E; injection E as <- end.
    match goal with E : Re.search _ _ = Ok ?a |- _ => destruct a as [m|] end;
      [|congruence].
    match goal with E : Re.search _ _ = Ok _ |- _ =>
      apply (search_joined true [Py.strip span]) in E as (gaps & _ & _ & Hgroup) end.
    + injection H as <-. rewrite Hgroup. simpl. now rewrite !Hstrip.
    + constructor; [|constructor]. now apply plain_strip.
Qed.

Lemma placeholder_free_identity_witness :
  fix_unk_from_text (py "Tokyo") (py "in Tokyo now") default_unk None = Ok (py "Tokyo")
  /\ (forall t,
        match_sublist (encode t (py "in Tokyo now")).1 (py "Tokyo") (id2token_of t) = Ok None ->
        fix_unk_from_text (py "Tokyo") (py "in Tokyo now") default_unk (Some t)
        = Ok (py "Tokyo"))
  /\ (forall t r,
        plain (py "Tokyo") -> Py.strip (py "Tokyo") = py "Tokyo" ->
        fix_unk_from_text (py "Tokyo") (py "in Tokyo now") default_unk (Some t) = Ok r ->
        r = py "Tokyo").
Proof.
  apply (placeholder_free_identity (py "Tokyo") (py "in Tokyo now") default_unk).
  vm_compute. reflexivity.
Defined.

(** C2, as the claim has it, fails on the tokenizer-assisted path, which
    has no guard of its own: with a character-level tokenizer the span
    [a ] is found in the text [a b] and comes back trimmed. *)
Lemma tokenizer_path_trims :
  Py.contains default_unk (py "a ") = false
  /\ fix_unk_from_text (py "a ") (py "a b") default_unk (Some char_tokenizer) = Ok (py "a")
  /\ py "a" <> py "a ".
Proof. repeat split; vm_compute; (reflexivity || discriminate). Qed.

(** On the same path an unescaped bar makes the span [a|b], found in the
    text, come back as [a]. *)
Example tokenizer_path_bar :
  fix_unk_from_text (py "a|b") (py "a|b") default_unk (Some char_tokenizer) = Ok (py "a").
Proof. vm_compute. reflexivity. Qed.

(** ** The decoding loop and the positions [match_sublist] returns *)

Lemma decode_loop_strings (the_list : list Z) (id2token : gmap Z (list N)) :
  Forall (fun tid => is_Some (id2token !! tid)) the_list ->
  forall i d,
    decode_loop the_list i id2token d
    = Ok {| decoded_text := decoded_text d ++ decoded_string the_list id2token;
            decoded_offset_mapping :=
              decoded_offset_mapping d ++ offsets_from i (token_strings the_list id2token);
            offset := (offset d + Z.of_nat (length (decoded_string the_list id2token)))%Z;
            tokens := tokens d ++ token_strings the_list id2token |}.
Proof.
  unfold decoded_string.
  induction 1 as [|tid l [t Ht] _ IH]; intros i d.
  - destruct d. simpl. now rewrite !app_nil_r, Z.add_0_r.
  - simpl decode_loop. rewrite Ht, IH. simpl. rewrite Ht. simpl.
    rewrite <- !app_assoc, length_app, Nat2Z.inj_add, Z.add_assoc. reflexivity.
Qed.

Lemma decode_loop_unknown (the_list : list Z) (id2token : gmap Z (list N)) :
  Exists (fun tid => id2token !! tid = None) the_list ->
  forall i d, decode_loop the_list i id2token d = Raise KeyError.
Proof.
  induction the_list as [|tid l IH]; intros H i d.
  - inversion H.
  - simpl. destruct (id2token !! tid) as [t|] eqn:E; [|reflexivity].
    apply IH. inversion H; subst; [congruence|assumption].
Qed.

Lemma known_or_unknown (the_list : list Z) (id2token : gmap Z (list N)) :
  Forall (fun tid => is_Some (id2token !! tid)) the_list
  \/ Exists (fun tid => id2token !! tid = None) the_list.
Proof.
  induction the_list as [|tid l [IH|IH]].
  - left. constructor.
  - destruct (id2token !! tid) as [t|] eqn:E.
    + left. constructor; [rewrite E; eauto|assumption].
    + right. now constructor.
  - right. now constructor 2.
Qed.

Lemma getitem_nth {A} (l : list A) (n : nat) (x : A) :
  nth_error l n = Some x -> Py.getitem l (Z.of_nat n) = Ok x.
Proof.
  intros H. unfold Py.getitem.
  destruct (Z.ltb_spec (Z.of_nat n) 0); [lia|].
  destruct (Z.ltb_spec (Z.of_nat n) 0); [lia|].
  now rewrite Nat2Z.id, H.
Qed.

Lemma getitem_cases {A} (l : list A) (i : Z) :
  (exists x, Py.getitem l i = Ok x) \/ Py.getitem l i = Raise IndexError.
Proof.
  unfold Py.getitem. cbv zeta.
  destruct (_ <? 0)%Z; [now right|].
  destruct (nth_error _ _); eauto.
Qed.

(** [find]: what a result other than -1 says. *)
Lemma find_from_found (sub : list N) : forall (s : list N) (i : Z),
  Py.find_from sub s i <> (-1)%Z ->
  (0 <= i)%Z ->
  exists n, Py.find_from sub s i = (i + Z.of_nat n)%Z /\ (n <= length s)%nat
            /\ Py.startswith sub (skipn n s) = true.
Proof.
  induction s as [|c s IH]; intros i H Hi; simpl in *.
  - destruct (Py.startswith sub []) eqn:E.
    + exists 0%nat. simpl. repeat split; [lia|lia|exact E].
    + congruence.
  - destruct (Py.startswith sub (c :: s)) eqn:E.
    + exists 0%nat. simpl. repeat split; [lia|lia|exact E].
    + destruct (IH (i + 1)%Z) as (n & Hn & Hle & Hs); [assumption|lia|].
      exists (S n). simpl. repeat split; [lia|lia|exact Hs].
Qed.

Lemma startswith_length (p : list N) : forall s,
  Py.startswith p s = true -> (length p <= length s)%nat.
Proof.
  induction p as [|a p IH]; intros [|b s]; simpl; try lia; try discriminate.
  intros H. apply andb_true_iff in H as [_ H]. apply IH in H. lia.
Qed.

(** The offset array entry at a character position is the index of the
    token that the character belongs to. *)
Lemma offsets_from_nth (toks : list (list N)) : forall (i : Z) (p : nat),
  (p < length (concat toks))%nat ->
  exists k,
    nth_error (offsets_from i toks) p = Some (i + Z.of_nat k)%Z
    /\ (k < length toks)%nat
    /\ (length (concat (firstn k toks)) <= p < length (concat (firstn (S k) toks)))%nat.
Proof.
  induction toks as [|t toks IH]; intros i p Hp; simpl in Hp; [lia|].
  rewrite length_app in Hp. simpl offsets_from.
  destruct (Nat.lt_ge_cases p (length t)) as [Hlt|Hge].
  - exists 0%nat. rewrite nth_error_app1 by (now rewrite length_map).
    split; [|split].
    + rewrite nth_error_map. destruct (nth_error t p) eqn:E; simpl.
      * f_equal. lia.
      * apply nth_error_None in E. lia.
    + simpl. lia.
    + simpl. rewrite app_nil_r. lia.
  - destruct (IH (i + 1)%Z (p - length t)%nat) as (k & Hk & Hlen & Hrange); [lia|].
    exists (S k). split; [|split].
    + rewrite nth_error_app2 by (rewrite length_map; lia).
      rewrite length_map, Hk. f_equal. lia.
    + simpl. lia.
    + change (firstn (S (S k)) (t :: toks)) with (t :: firstn (S k) toks).
      change (firstn (S k) (t :: toks)) with (t :: firstn k toks).
      simpl concat. rewrite !length_app. lia.
Qed.

Lemma concat_firstn_le (toks : list (list N)) (a b : nat) :
  (a <= b)%nat -> (length (concat (firstn a toks)) <= length (concat (firstn b toks)))%nat.
Proof.
  revert a b. induction toks as [|t toks IH]; intros a b Hab.
  - now rewrite !firstn_nil.
  - destruct a; [simpl; lia|]. destruct b; [lia|]. simpl. rewrite !length_app.
    specialize (IH a b). lia.
Qed.

(** A run of characters that lies inside the middle part of a string is
    a substring of that part. *)
Lemma substring_inside (X M Y pre u post : list N) :
  X ++ M ++ Y = pre ++ u ++ post ->
  (length X <= length pre)%nat ->
  (length pre + length u <= length X + length M)%nat ->
  substring u M.
Proof.
  intros E HX HM.
  assert (E1 : M ++ Y = skipn (length X) pre ++ u ++ post).
  { apply (f_equal (skipn (length X))) in E.
    rewrite !List.skipn_app, List.skipn_all, Nat.sub_diag, skipn_O in E.
    replace (length X - length pre)%nat with 0%nat in E by lia.
    rewrite skipn_O in E. exact E. }
  assert (Hp : (length (skipn (length X) pre) = length pre - length X)%nat)
    by apply List.length_skipn.
  apply (f_equal (firstn (length M))) in E1.
  rewrite List.firstn_app, List.firstn_all, Nat.sub_diag, List.firstn_O, app_nil_r in E1.
  rewrite List.firstn_app, (List.firstn_all2 (n := length M) (skipn (length X) pre)) in E1
    by lia.
  rewrite List.firstn_app,
    (List.firstn_all2 (n := (length M - length (skipn (length X) pre))%nat) u) in E1
    by lia.
  rewrite E1. eexists _, _. reflexivity.
Qed.

Lemma firstn_plus {A} (a n : nat) : forall l : list A,
  firstn (a + n) l = firstn a l ++ firstn n (skipn a l).
Proof.
  induction a as [|a IH]; intros l; [reflexivity|].
  destruct l as [|x l]; simpl.
  - now rewrite List.firstn_nil.
  - now rewrite IH.
Qed.

Lemma concat_split_range (toks : list (list N)) (a b : nat) :
  (a <= b)%nat ->
  concat toks
  = concat (firstn a toks) ++ token_range toks a b ++ concat (skipn (S b) toks).
Proof.
  intros Hab. unfold token_range.
  rewrite <- !concat_app, app_assoc, <- firstn_plus.
  replace (a + (S b - a))%nat with (S b) by lia.
  now rewrite List.firstn_skipn.
Qed.

Lemma token_range_length (toks : list (list N)) (a b : nat) :
  (a <= b)%nat ->
  (length (concat (firstn a toks)) + length (token_range toks a b)
   = length (concat (firstn (S b) toks)))%nat.
Proof.
  intros Hab. unfold token_range. rewrite <- length_app, <- concat_app, <- firstn_plus.
  do 3 f_equal. lia.
Qed.

(** What [match_sublist] returns when every id is known and the target,
    which is not empty, occurs in the decoded text. *)
Lemma match_sublist_found (the_list : list Z) (to_match : list N)
    (id2token : gmap Z (list N)) :
  Forall (fun tid => is_Some (id2token !! tid)) the_list ->
  to_match <> [] ->
  Py.contains to_match (decoded_string the_list id2token) = true ->
  exists a b : nat,
    match_sublist the_list to_match id2token = Ok (Some [Z.of_nat a; Z.of_nat b])
    /\ (a <= b < length the_list)%nat
    /\ substring to_match (token_range (token_strings the_list id2token) a b).
Proof.
  intros Hknown Hne Hin.
  unfold match_sublist. rewrite (decode_loop_strings _ _ Hknown). cbn [bind decoded_text
    decoded_offset_mapping app].
  unfold Py.contains in Hin. apply negb_true_iff, Z.eqb_neq in Hin.
  unfold Py.find in *.
  destruct (find_from_found to_match (decoded_string the_list id2token) 0%Z)
    as (n & Hn & Hle & Hs); [assumption|lia|].
  rewrite Hn in *. clear Hn. rewrite Z.add_0_l.
  destruct (Z.eqb_spec (Z.of_nat n) (-1)); [lia|].
  pose proof (startswith_length _ _ Hs) as Hlen. rewrite length_skipn in Hlen.
  assert (Hpos : (0 < length to_match)%nat) by (destruct to_match; [congruence|simpl; lia]).
  set (toks := token_strings the_list id2token) in *.
  assert (Hdec : decoded_string the_list id2token = concat toks) by reflexivity.
  rewrite Hdec in *.
  destruct (offsets_from_nth toks 0%Z n) as (a & Ha & Hat & Har); [lia|].
  destruct (offsets_from_nth toks 0%Z (n + length to_match - 1)%nat)
    as (b & Hb & Hbt & Hbr); [lia|].
  exists a, b.
  rewrite (getitem_nth _ _ _ Ha). cbn [bind].
  replace (Z.of_nat n + Z.of_nat (length to_match) - 1)%Z
    with (Z.of_nat (n + length to_match - 1)) by lia.
  rewrite (getitem_nth _ _ _ Hb). cbn [bind]. rewrite !Z.add_0_l.
  assert (Hab : (a <= b)%nat).
  { destruct (Nat.le_gt_cases a b) as [|Hgt]; [assumption|].
    pose proof (concat_firstn_le toks (S b) a Hgt). lia. }
  split; [reflexivity|]. split.
  - unfold toks, token_strings in Hbt. rewrite length_map in Hbt. lia.
  - apply startswith_app in Hs.
    pose proof (firstn_skipn n (concat toks)) as Hsplit. rewrite Hs in Hsplit.
    rewrite (concat_split_range toks a b Hab) in Hsplit at 3.
    symmetry in Hsplit. apply substring_inside in Hsplit; [assumption| |].
    + rewrite length_firstn. lia.
    + rewrite length_firstn, (token_range_length toks a b Hab). lia.
Qed.

Lemma match_sublist_absent (the_list : list Z) (to_match : list N)
    (id2token : gmap Z (list N)) :
  Forall (fun tid => is_Some (id2token !! tid)) the_list ->
  Py.contains to_match (decoded_string the_list id2token) = false ->
  match_sublist the_list to_match id2token = Ok None.
Proof.
  intros Hknown Hin.
  unfold match_sublist. rewrite (decode_loop_strings _ _ Hknown). cbn [bind decoded_text app].
  unfold Py.contains in Hin. apply negb_false_iff in Hin. now rewrite Hin.
Qed.

Lemma match_sublist_present (the_list : list Z) (to_match : list N)
    (id2token : gmap Z (list N)) :
  Forall (fun tid => is_Some (id2token !! tid)) the_list ->
  Py.contains to_match (decoded_string the_list id2token) = true ->
  match_sublist the_list to_match id2token <> Ok None.
Proof.
  intros Hknown Hin.
  unfold match_sublist. rewrite (decode_loop_strings _ _ Hknown). cbn [bind decoded_text
    decoded_offset_mapping app].
  unfold Py.contains in Hin. apply negb_true_iff in Hin. rewrite Hin.
  destruct (getitem_cases (offsets_from 0 (token_strings the_list id2token))
              (Py.find (decoded_string the_list id2token) to_match)) as [[x ->]| ->];
    cbn [bind]; [|discriminate].
  match goal with |- context [Py.getitem ?l ?i] =>
    destruct (getitem_cases l i) as [[y ->]| ->] end; cbn [bind]; discriminate.
Qed.

(** ** The word-boundary marker *)

Lemma join_cons (sep x : list N) (l : list (list N)) :
  l <> [] -> Py.join sep (x :: l) = x ++ sep ++ Py.join sep l.
Proof. destruct l; [congruence|reflexivity]. Qed.

Lemma join_nil_split_go (c : N) : forall (s cur : list N),
  Py.join [] (Py.split_go [c] s 0 cur)
  = rev cur ++ List.filter (fun x => negb (x =? c)) s.
Proof.
  induction s as [|a s IH]; intros cur.
  - simpl. now rewrite app_nil_r.
  - cbn [Py.split_go Py.startswith length Nat.pred List.filter]. rewrite andb_true_r.
    rewrite (N.eqb_sym a c). destruct (c =? a) eqn:E; cbn [negb].
    + rewrite join_cons by apply split_go_nonempty. now rewrite IH.
    + rewrite IH. simpl. now rewrite <- app_assoc.
Qed.

Lemma replace_marker (t : list N) :
  Py.replace t (py "▁") [] = List.filter (fun x => negb (x =? 9601)) t.
Proof. exact (join_nil_split_go 9601 t []). Qed.

Lemma decoded_no_marker (the_list : list Z) (id2token : gmap Z (list N)) :
  ~ In 9601 (decoded_string the_list id2token).
Proof.
  unfold decoded_string, token_strings. intros H.
  apply List.in_concat in H as (tok & Htok & Hin).
  apply in_map_iff in Htok as (tid & <- & _).
  rewrite replace_marker in Hin. apply List.filter_In in Hin as [_ Hin].
  discriminate Hin.
Qed.

Lemma contains_In (sub s : list N) (c : N) :
  Py.contains sub s = true -> In c sub -> In c s.
Proof.
  unfold Py.contains, Py.find. intros H Hc. apply negb_true_iff, Z.eqb_neq in H.
  destruct (find_from_found sub s 0%Z H) as (n & _ & _ & Hs); [lia|].
  apply startswith_app in Hs.
  rewrite <- (List.firstn_skipn n s), Hs. apply in_or_app. right.
  apply in_or_app. now left.
Qed.

Lemma marker_absent (the_list : list Z) (span : list N) (id2token : gmap Z (list N)) :
  Py.contains (py "▁") span = true ->
  Py.contains span (decoded_string the_list id2token) = false.
Proof.
  intros H. destruct (Py.contains span _) eqn:E; [|reflexivity].
  exfalso. apply (decoded_no_marker the_list id2token).
  apply (contains_In span _ 9601 E), (contains_In (py "▁") span 9601 H).
  now left.
Qed.

(** ** The reverse vocabulary *)

Lemma find_snoc {A} (f : A -> bool) (x : A) : forall l : list A,
  List.find f (l ++ [x])
  = match List.find f l with
    | Some y => Some y
    | None => if f x then Some x else None
    end.
Proof.
  induction l as [|a l IH]; simpl; [reflexivity|].
  destruct (f a); [reflexivity|exact IH].
Qed.

Lemma id2token_fold (i : Z) : forall (l : list (list N * Z)) (m : gmap Z (list N)),
  fold_left (fun m kv => <[kv.2 := kv.1]> m) l m !! i
  = match List.find (fun kv => (kv.2 =? i)%Z) (rev l) with
    | Some kv => Some kv.1
    | None => m !! i
    end.
Proof.
  induction l as [|kv l IH]; intros m; simpl; [reflexivity|].
  rewrite IH, find_snoc. destruct (List.find _ (rev l)); [reflexivity|].
  rewrite lookup_insert. destruct (Z.eqb_spec kv.2 i) as [->|Hne].
  - now rewrite decide_True.
  - now rewrite decide_False.
Qed.

Lemma id2token_missing (t : tokenizer_capability) (i : Z) :
  ~ In i (map snd (vocab t)) -> id2token_of t !! i = None.
Proof.
  intros H. unfold id2token_of. rewrite id2token_fold.
  destruct (List.find _ _) as [kv|] eqn:E; [|apply lookup_empty].
  apply List.find_some in E as [Hin E]. apply Z.eqb_eq in E. subst i.
  exfalso. apply H, in_map. now apply in_rev.
Qed.

(** ** Patterns made of literals *)

Lemma sre_match_literals (s x : list N) : forall i (w : list N) c k,
  Re.sre_match s (Re.seq_of (map Re.LITERAL x)) i w c k
  = if Py.startswith x w then k (i + length x)%nat (skipn (length x) w) c else None.
Proof.
  induction x as [|a x IH]; intros i w c k.
  - simpl. now rewrite Nat.add_0_r, skipn_O.
  - change (Re.seq_of (map Re.LITERAL (a :: x)))
      with (Re.Cat (Re.LITERAL a) (Re.seq_of (map Re.LITERAL x))).
    rewrite sre_match_Cat. destruct w as [|b w]; [reflexivity|].
    cbn [Re.sre_match Py.startswith length skipn]. rewrite (N.eqb_sym b a).
    destruct (a =? b); [|reflexivity]. rewrite IH. cbn [andb].
    now replace (S i + length x)%nat with (i + S (length x))%nat by lia.
Qed.

Lemma scan_literals (s x : list N) : forall (w : list N) (p : nat),
  Re.scan s (Re.seq_of (map Re.LITERAL x)) false p w
  = let r := Py.find_from x w (Z.of_nat p) in
    if (r =? -1)%Z then None
    else Some (Z.to_nat r, (Z.to_nat r + length x)%nat, []).
Proof.
  cbv zeta.
  induction w as [|b w IH]; intros p; cbn [Re.scan Py.find_from];
    rewrite sre_match_literals; cbn [andb].
  - destruct (Py.startswith x []); [|reflexivity].
    destruct (Z.eqb_spec (Z.of_nat p) (-1)); [lia|]. now rewrite Nat2Z.id.
  - destruct (Py.startswith x (b :: w)).
    + destruct (Z.eqb_spec (Z.of_nat p) (-1)); [lia|]. now rewrite Nat2Z.id.
    + rewrite IH. now rewrite Nat2Z.inj_succ, Z.add_1_r.
Qed.

Lemma search_escaped (x s : list N) :
  plain x ->
  Re.search (escape x) s
  = Ok (if (Py.find s x =? -1)%Z then None
        else Some {| Re.m_string := s;
                     Re.m_start := Z.to_nat (Py.find s x);
                     Re.m_end := (Z.to_nat (Py.find s x) + length x)%nat;
                     Re.m_marks := [] |}).
Proof.
  intros Hx. unfold Re.search.
  pose proof (compile_joined true [x]) as Hc. simpl in Hc. rewrite Hc by (now constructor).
  cbn [bind]. unfold Re.search_from. cbn [Re.code]. rewrite skipn_O, scan_literals.
  cbv zeta. unfold Py.find. change (Z.of_nat 0) with 0%Z.
  now destruct (_ =? -1)%Z.
Qed.

Lemma find_app_none {A} (f : A -> bool) (l l' : list A) :
  List.find f l = None -> List.find f (l ++ l') = List.find f l'.
Proof.
  induction l as [|a l IH]; simpl; [reflexivity|].
  destruct (f a); [discriminate|exact IH].
Qed.

Lemma contains_nil (s : list N) : Py.contains [] s = true.
Proof. now destruct s. Qed.

Lemma without_tokenizer_empty_marker (span text : list N) :
  fix_unk_from_text_without_tokenizer span text [] = Raise ValueError.
Proof.
  unfold fix_unk_from_text_without_tokenizer. now rewrite contains_nil.
Qed.

Lemma match_sublist_cases (the_list : list Z) (to_match : list N)
    (id2token : gmap Z (list N)) :
  Forall (fun tid => is_Some (id2token !! tid)) the_list ->
  to_match <> [] ->
  match_sublist the_list to_match id2token = Ok None
  \/ exists a b : nat,
       match_sublist the_list to_match id2token = Ok (Some [Z.of_nat a; Z.of_nat b])
       /\ (a <= b < length the_list)%nat.
Proof.
  intros Hknown Hne.
  destruct (Py.contains to_match (decoded_string the_list id2token)) eqn:E.
  - right. destruct (match_sublist_found _ _ _ Hknown Hne E) as (a & b & H & Hab & _).
    eauto.
  - left. now apply match_sublist_absent.
Qed.

(** ** Further properties of the functions *)

(** X1. [clean_wildcard] never raises, whatever its argument: it returns
    the argument with a backslash put in front of every occurrence of one
    of the eight characters of [sp], and nothing else changed. *)
Theorem clean_wildcard_always_escapes (x : list N) :
  clean_wildcard x
  = Ok (flat_map (fun c => if Re.char_in c ".*?()[]+" then [92; c] else [c]) x).
Proof. exact (clean_wildcard_escape x). Qed.

(** X2. For a fragment without the characters that [clean_wildcard] leaves
    unescaped, searching a string for the cleaned fragment is [str.find]:
    there is a match exactly when the fragment occurs, the match starts
    at the lowest index where it occurs, and the matched text is the
    fragment itself. *)
Theorem cleaned_fragment_matches_literally (x s : list N) :
  plain x ->
  (let* p := clean_wildcard x in Re.search p s)
  = Ok (if (Py.find s x =? -1)%Z then None
        else Some {| Re.m_string := s;
                     Re.m_start := Z.to_nat (Py.find s x);
                     Re.m_end := (Z.to_nat (Py.find s x) + length x)%nat;
                     Re.m_marks := [] |})
  /\ forall m, (let* p := clean_wildcard x in Re.search p s) = Ok (Some m) ->
               Re.group m = x.
Proof.
  intros Hx. rewrite clean_wildcard_escape. cbn [bind]. rewrite (search_escaped x s Hx).
  split; [reflexivity|]. intros m Hm.
  destruct (Z.eqb_spec (Py.find s x) (-1)) as [|Hne]; [discriminate|].
  injection Hm as <-. unfold Py.find in *.
  destruct (find_from_found x s 0%Z Hne) as (n & -> & Hle & Hs); [lia|].
  rewrite Z.add_0_l, Nat2Z.id. unfold Re.group. cbn [Re.m_string Re.m_start Re.m_end].
  apply startswith_app in Hs.
  rewrite <- (List.firstn_skipn n s) at 1. rewrite Hs.
  replace n with (length (firstn n s)) at 3 4 by (rewrite List.length_firstn; lia).
  apply between_app_middle.
Qed.

Lemma cleaned_fragment_matches_literally_witness :
  (let* p := clean_wildcard (py "f(x)") in Re.search p (py "y = f(x) + 1"))
  = Ok (if (Py.find (py "y = f(x) + 1") (py "f(x)") =? -1)%Z then None
        else Some {| Re.m_string := py "y = f(x) + 1";
                     Re.m_start := Z.to_nat (Py.find (py "y = f(x) + 1") (py "f(x)"));
                     Re.m_end := (Z.to_nat (Py.find (py "y = f(x) + 1") (py "f(x)"))
                                  + length (py "f(x)"))%nat;
                     Re.m_marks := [] |})
  /\ forall m, (let* p := clean_wildcard (py "f(x)") in Re.search p (py "y = f(x) + 1"))
               = Ok (Some m) ->
               Re.group m = py "f(x)".
Proof.
  apply (cleaned_fragment_matches_literally (py "f(x)") (py "y = f(x) + 1")).
  repeat constructor.
Defined.

(** X3. With the empty string as placeholder no path returns a value: the
    guard [unk not in span] never fires, and [span.split(unk)] raises
    [ValueError].  Without a tokenizer that is the outcome for every span
    and text; with one, whatever is raised before line 71 is raised
    instead. *)
Theorem empty_placeholder_never_returns (span text : list N) :
  fix_unk_from_text span text [] None = Raise ValueError
  /\ forall t r, fix_unk_from_text span text [] (Some t) <> Ok r.
Proof.
  split; [apply without_tokenizer_empty_marker|].
  intros t r. simpl. unfold fix_unk_from_text_with_tokenizer.
  destruct (encode t text) as [tokenized_text offset_mapping].
  destruct (match_sublist _ _ _) as [[[|m0 ms]|]| |]; cbn [bind];
    try discriminate; try (rewrite without_tokenizer_empty_marker; discriminate).
  repeat match goal with
         | |- bind ?e _ <> _ => destruct e; cbn [bind]; try discriminate
         end.
Qed.

(** X4. [match_sublist] raises [KeyError] exactly when the list holds an id
    that is not a key of [id2token], whatever the target. *)
Theorem unknown_id_key_error (the_list : list Z) (to_match : list N)
    (id2token : gmap Z (list N)) :
  match_sublist the_list to_match id2token = Raise KeyError
  <-> Exists (fun tid => id2token !! tid = None) the_list.
Proof.
  split.
  - intros H. destruct (known_or_unknown the_list id2token) as [Hknown|]; [|assumption].
    exfalso. revert H.
    unfold match_sublist. rewrite (decode_loop_strings _ _ Hknown).
    cbn [bind decoded_text decoded_offset_mapping app].
    destruct (_ =? -1)%Z; [discriminate|].
    repeat match goal with
           | |- bind (Py.getitem ?l ?i) _ = _ -> False =>
               destruct (getitem_cases l i) as [[? ->]| ->]; cbn [bind]; try discriminate
           end.
  - intros H. unfold match_sublist. now rewrite (decode_loop_unknown _ _ H).
Qed.

(** X5. The reverse vocabulary of line 56 maps an id to the token of the
    last vocabulary item that carries it: where two tokens share an id,
    the later one wins. *)
Theorem reverse_vocabulary_last_wins (t : tokenizer_capability)
    (l1 l2 : list (list N * Z)) (tok : list N) (i : Z) :
  vocab t = l1 ++ (tok, i) :: l2 ->
  ~ In i (map snd l2) ->
  id2token_of t !! i = Some tok.
Proof.
  intros Hv Hl2. unfold id2token_of. rewrite id2token_fold, Hv, rev_app_distr.
  cbn [rev]. rewrite <- app_assoc, find_app_none.
  - simpl. now rewrite Z.eqb_refl.
  - destruct (List.find _ _) as [kv|] eqn:E; [|reflexivity].
    apply List.find_some in E as [Hin E]. apply Z.eqb_eq in E. subst i.
    exfalso. apply Hl2, in_map. now apply in_rev.
Qed.

Lemma reverse_vocabulary_last_wins_witness :
  id2token_of {| vocab := [(py "a", 1%Z); (py "b", 1%Z); (py "c", 2%Z)];
                 encode := fun _ => ([], []) |} !! 1%Z
  = Some (py "b").
Proof.
  apply (reverse_vocabulary_last_wins
           {| vocab := [(py "a", 1%Z); (py "b", 1%Z); (py "c", 2%Z)];
              encode := fun _ => ([], []) |}
           [(py "a", 1%Z)] [(py "c", 2%Z)] (py "b") 1%Z).
  - reflexivity.
  - simpl. lia.
Defined.

(** X6. When the tokenizer gives the text an id that no vocabulary item
    carries, [fix_unk_from_text] with that tokenizer raises [KeyError],
    whatever the span and the placeholder: the tokenizer-free recovery is
    not tried. *)
Theorem tokenizer_unknown_id_raises (span text unk : list N) (t : tokenizer_capability) :
  Exists (fun tid => ~ In tid (map snd (vocab t))) (encode t text).1 ->
  fix_unk_from_text span text unk (Some t) = Raise KeyError.
Proof.
  intros H. simpl. unfold fix_unk_from_text_with_tokenizer.
  change (fold_left _ (vocab t) ∅) with (id2token_of t).
  destruct (encode t text) as [tokenized_text offset_mapping]. simpl in H.
  replace (match_sublist tokenized_text span (id2token_of t)) with
    (@Raise (option (list Z)) KeyError); [reflexivity|].
  symmetry. unfold match_sublist. rewrite decode_loop_unknown; [reflexivity|].
  eapply List.Exists_impl; [|exact H]. intros tid. apply id2token_missing.
Qed.

Lemma tokenizer_unknown_id_raises_witness :
  fix_unk_from_text (py "<unk> colo") (py "Ícolo") default_unk (Some char_tokenizer)
  = Raise KeyError.
Proof.
  apply (tokenizer_unknown_id_raises (py "<unk> colo") (py "Ícolo") default_unk char_tokenizer).
  apply Exists_cons_hd. vm_compute. intros H.
  repeat (destruct H as [H|H]; [discriminate H|]). exact H.
Defined.

(** X7. When every id of the list is a key of [id2token], [match_sublist]
    returns [None] exactly when the target does not occur in the decoded
    text, the concatenation of the tokens with their word-boundary
    markers removed. *)
Theorem no_match_iff_absent (the_list : list Z) (to_match : list N)
    (id2token : gmap Z (list N)) :
  Forall (fun tid => is_Some (id2token !! tid)) the_list ->
  (match_sublist the_list to_match id2token = Ok None
   <-> Py.contains to_match (decoded_string the_list id2token) = false).
Proof.
  intros Hknown. split.
  - intros H. destruct (Py.contains _ _) eqn:E; [|reflexivity].
    now apply (match_sublist_present _ _ _ Hknown) in E.
  - now apply match_sublist_absent.
Qed.

Lemma no_match_iff_absent_witness :
  match_sublist [0; 1; 2; 0]%Z (py "a b") sample_id2token = Ok None
  <-> Py.contains (py "a b") (decoded_string [0; 1; 2; 0]%Z sample_id2token) = false.
Proof.
  apply (no_match_iff_absent [0; 1; 2; 0]%Z (py "a b") sample_id2token).
  repeat constructor; eexists; vm_compute; reflexivity.
Defined.

(** X8. When every id of the list is a key of [id2token] and the target,
    not empty, occurs in the decoded text, [match_sublist] returns two
    positions [a <= b] of the list, and the target lies within the
    decoded text of the tokens from [a] to [b]. *)
Theorem match_range_covers_target (the_list : list Z) (to_match : list N)
    (id2token : gmap Z (list N)) :
  Forall (fun tid => is_Some (id2token !! tid)) the_list ->
  to_match <> [] ->
  Py.contains to_match (decoded_string the_list id2token) = true ->
  exists a b : nat,
    match_sublist the_list to_match id2token = Ok (Some [Z.of_nat a; Z.of_nat b])
    /\ (a <= b < length the_list)%nat
    /\ substring to_match (token_range (token_strings the_list id2token) a b).
Proof. apply match_sublist_found. Qed.

Lemma match_range_covers_target_witness :
  exists a b : nat,
    match_sublist [0; 1; 2; 0; 1]%Z (py "ba") sample_id2token
    = Ok (Some [Z.of_nat a; Z.of_nat b])
    /\ (a <= b < length [0; 1; 2; 0; 1]%Z)%nat
    /\ substring (py "ba")
         (token_range (token_strings [0; 1; 2; 0; 1]%Z sample_id2token) a b).
Proof.
  apply (match_range_covers_target [0; 1; 2; 0; 1]%Z (py "ba") sample_id2token).
  - repeat constructor; eexists; vm_compute; reflexivity.
  - discriminate.
  - vm_compute. reflexivity.
Defined.

(** X9. With the empty target and a decoded text that is empty too (an
    empty id list, or tokens made of word-boundary markers only),
    [match_sublist] raises [IndexError]: [find] gives 0 and the offset
    array has no entry. *)
Theorem empty_target_empty_text_raises (the_list : list Z) (id2token : gmap Z (list N)) :
  Forall (fun tid => is_Some (id2token !! tid)) the_list ->
  decoded_string the_list id2token = [] ->
  match_sublist the_list [] id2token = Raise IndexError.
Proof.
  intros Hknown Hempty.
  unfold match_sublist. rewrite (decode_loop_strings _ _ Hknown).
  cbn [bind decoded_text decoded_offset_mapping app]. rewrite Hempty.
  assert (Hoff : offsets_from 0 (token_strings the_list id2token) = []).
  { apply length_zero_iff_nil. rewrite offsets_from_length.
    change (concat _) with (decoded_string the_list id2token). now rewrite Hempty. }
  rewrite Hoff. reflexivity.
Qed.

Lemma empty_target_empty_text_raises_witness :
  match_sublist [0; 0]%Z [] sample_id2token = Raise IndexError.
Proof.
  apply (empty_target_empty_text_raises [0; 0]%Z sample_id2token).
  - repeat constructor; eexists; vm_compute; reflexivity.
  - vm_compute. reflexivity.
Defined.

(** X10. A span that holds the word-boundary marker is never found by
    [match_sublist], since the marker is removed from every token before
    the search; with a tokenizer all of whose ids are in its vocabulary,
    [fix_unk_from_text] then does what it does without a tokenizer. *)
Theorem marker_in_span_falls_back (span text unk : list N) (t : tokenizer_capability) :
  Forall (fun tid => is_Some (id2token_of t !! tid)) (encode t text).1 ->
  Py.contains (py "▁") span = true ->
  match_sublist (encode t text).1 span (id2token_of t) = Ok None
  /\ fix_unk_from_text span text unk (Some t) = fix_unk_from_text span text unk None.
Proof.
  intros Hknown Hmarker.
  assert (Hm : match_sublist (encode t text).1 span (id2token_of t) = Ok None).
  { apply match_sublist_absent; [exact Hknown|]. now apply marker_absent. }
  split; [exact Hm|]. simpl. now apply with_tokenizer_no_match.
Qed.

Lemma marker_in_span_falls_back_witness :
  match_sublist (encode char_tokenizer (py "a b")).1 (py "▁b") (id2token_of char_tokenizer)
  = Ok None
  /\ fix_unk_from_text (py "▁b") (py "a b") default_unk (Some char_tokenizer)
     = fix_unk_from_text (py "▁b") (py "a b") default_unk None.
Proof.
  apply (marker_in_span_falls_back (py "▁b") (py "a b") default_unk char_tokenizer).
  - repeat constructor; eexists; vm_compute; reflexivity.
  - vm_compute. reflexivity.
Defined.

(** X11. When no fragment of the span holds one of the characters that
    [clean_wildcard] leaves unescaped, the tokenizer-free recovery
    returns a value for every text, and the value is the one the reverse
    search alone gives. *)
Theorem plain_span_always_returns (span text unk : list N) (frags : list (list N)) :
  Py.split span unk = Ok frags ->
  Forall plain frags ->
  exists r, fix_unk_from_text span text unk None = Ok r
            /\ fix_unk_reverse_only span text unk = Ok r.
Proof.
  intros Hsplit Hplain.
  destruct (plain_span_returns span text unk frags Hsplit Hplain) as [r Hr].
  exists r. split; [exact Hr|].
  now rewrite <- (plain_span_forward_irrelevant _ _ _ _ Hsplit Hplain).
Qed.

Lemma plain_span_always_returns_witness :
  exists r, fix_unk_from_text (py "Atatürk Monument ( <unk> zmir )")
              (py "The Atatürk Monument ( İzmir ) can be found in Turkey .")
              default_unk None = Ok r
            /\ fix_unk_reverse_only (py "Atatürk Monument ( <unk> zmir )")
                 (py "The Atatürk Monument ( İzmir ) can be found in Turkey .")
                 default_unk = Ok r.
Proof.
  apply (plain_span_always_returns (py "Atatürk Monument ( <unk> zmir )")
           (py "The Atatürk Monument ( İzmir ) can be found in Turkey .")
           default_unk [py "Atatürk Monument ( "; py " zmir )"]).
  - vm_compute. reflexivity.
  - repeat constructor.
Defined.

(** X12. The tokenizer-assisted path returns a value whenever no fragment
    of the span holds a character that [clean_wildcard] leaves
    unescaped, the span is not empty, every id the tokenizer gives the
    text is in its vocabulary, and the tokenizer gives as many offsets as
    ids: the two positions of [match_sublist] are then valid indices of
    the offset mapping. *)
Theorem tokenizer_path_returns (span text unk : list N) (t : tokenizer_capability)
    (frags : list (list N)) :
  Py.split span unk = Ok frags ->
  Forall plain frags ->
  span <> [] ->
  Forall (fun tid => is_Some (id2token_of t !! tid)) (encode t text).1 ->
  length (encode t text).2 = length (encode t text).1 ->
  exists r, fix_unk_from_text span text unk (Some t) = Ok r.
Proof.
  intros Hsplit Hplain Hne Hknown Hlen. simpl.
  destruct (match_sublist_cases _ _ _ Hknown Hne) as [Hm|(a & b & Hm & Hab)].
  - rewrite (with_tokenizer_no_match _ _ _ _ Hm).
    now apply plain_span_returns with frags.
  - unfold fix_unk_from_text_with_tokenizer.
    change (fold_left _ (vocab t) ∅) with (id2token_of t).
    destruct (encode t text) as [tokenized_text offset_mapping].
    cbn [fst snd] in *. rewrite Hm. cbn [bind]. rewrite getitem_first. cbn [bind].
    destruct (nth_error offset_mapping a) as [o0|] eqn:Ea;
      [|apply nth_error_None in Ea; lia].
    destruct (nth_error offset_mapping b) as [o1|] eqn:Eb;
      [|apply nth_error_None in Eb; lia].
    rewrite (getitem_nth _ _ _ Ea). cbn [bind].
    change [Z.of_nat a; Z.of_nat b] with ([Z.of_nat a] ++ [Z.of_nat b]).
    rewrite getitem_last. cbn [bind]. rewrite (getitem_nth _ _ _ Eb). cbn [bind].
    rewrite Hsplit. cbn [bind]. rewrite (mapM_clean Py.strip). cbn [bind].
    destruct (search_joined_completes true (map Py.strip frags)
                (Py.slice text o0.1 o1.2)) as [[m|] Hs].
    + apply List.Forall_map. eapply List.Forall_impl; [|exact Hplain]. apply plain_strip.
    + rewrite map_map in Hs. change (wildcard true) with (py "\s*\S+\s*") in Hs.
      cbn [fst snd]. rewrite Hs. cbn [bind]. eauto.
    + rewrite map_map in Hs. change (wildcard true) with (py "\s*\S+\s*") in Hs.
      cbn [fst snd]. rewrite Hs. cbn [bind]. eauto.
Qed.

Lemma tokenizer_path_returns_witness :
  exists r, fix_unk_from_text (py "b c") (py "a b c d") default_unk
              (Some char_tokenizer) = Ok r.
Proof.
  apply (tokenizer_path_returns (py "b c") (py "a b c d") default_unk char_tokenizer
           [py "b c"]).
  - vm_compute. reflexivity.
  - repeat constructor.
  - discriminate.
  - repeat constructor; eexists; vm_compute; reflexivity.
  - vm_compute. reflexivity.
Defined.

Lemma split_go_occurrence (unk : list N) : forall (s cur : list N) (i : Z),
  unk <> [] -> Py.find_from unk s i <> (-1)%Z ->
  (2 <= length (Py.split_go unk s 0 cur))%nat.
Proof.
  induction s as [|c s IH]; intros cur i Hne H; simpl in H.
  - destruct unk; [congruence|]. simpl in H. congruence.
  - cbn [Py.split_go]. destruct (Py.startswith unk (c :: s)).
    + pose proof (split_go_nonempty unk s (Nat.pred (length unk)) []) as Hn.
      destruct (Py.split_go unk s _ []); [congruence|simpl; lia].
    + now apply (IH _ (i + 1)%Z).
Qed.

Lemma split_occurrence (span unk : list N) (frags : list (list N)) :
  Py.contains unk span = true -> Py.split span unk = Ok frags ->
  (2 <= length frags)%nat.
Proof.
  unfold Py.contains, Py.find, Py.split. intros H.
  apply negb_true_iff, Z.eqb_neq in H.
  destruct unk as [|c unk]; [discriminate|]. intros [= <-].
  now apply split_go_occurrence with 0%Z.
Qed.

Lemma gap_has_nonspace (g : list N) : is_gap g -> exists c, In c g /\ Py.isspace c = false.
Proof.
  intros (a & b & c & -> & _ & Hne & Hb & _).
  destruct b as [|x b]; [congruence|]. exists x. split.
  - apply in_or_app. right. now left.
  - now inversion Hb.
Qed.

Lemma interleave_has_nonspace (F : list (list N)) : forall gaps,
  (2 <= length F)%nat -> length gaps = Nat.pred (length F) -> Forall is_gap gaps ->
  exists c, In c (interleave F gaps) /\ Py.isspace c = false.
Proof.
  destruct F as [|f [|f' F]]; intros gaps HF Hlen Hgaps; simpl in HF; try lia.
  destruct gaps as [|g gaps]; [discriminate|].
  inversion Hgaps as [|? ? Hg _]; subst.
  destruct (gap_has_nonspace g Hg) as (c & Hc & Hs).
  exists c. split; [|exact Hs].
  change (interleave (f :: f' :: F) (g :: gaps)) with (f ++ g ++ interleave (f' :: F) gaps).
  apply in_or_app. right. apply in_or_app. now left.
Qed.

Lemma all_space_substring (u t : list N) : substring u t -> all_space t -> all_space u.
Proof.
  intros (pre & post & ->) H. unfold all_space in *.
  apply List.Forall_app in H as [_ H]. now apply List.Forall_app in H as [H _].
Qed.

(** X13. On a text without any character that is not whitespace, the empty
    text included, the tokenizer-free recovery returns the span as it is,
    for every span whose fragments hold none of the characters that
    [clean_wildcard] leaves unescaped: the wildcard needs one such
    character. *)
Theorem blank_text_returns_span (span text unk : list N) (frags : list (list N)) :
  Py.split span unk = Ok frags ->
  Forall plain frags ->
  all_space text ->
  fix_unk_from_text span text unk None = Ok span.
Proof.
  intros Hsplit Hplain Hblank. simpl.
  rewrite (plain_span_forward_irrelevant _ _ _ _ Hsplit Hplain), reverse_only_eq.
  destruct (Py.contains unk span) eqn:Hin; [|reflexivity]. cbn [negb].
  rewrite (reverse_pattern_eq _ _ _ Hsplit). cbn [bind].
  set (F := rev (map (fun f => rev (Py.strip f)) frags)).
  assert (HF : Forall plain F).
  { apply List.Forall_rev, List.Forall_map.
    eapply List.Forall_impl; [|exact Hplain]. intros f Hf. now apply plain_rev, plain_strip. }
  destruct (search_joined_completes false F (rev text) HF) as [[m|] Hs];
    rewrite Hs; cbn [bind]; [|reflexivity].
  exfalso.
  pose proof (search_group_substring _ _ _ Hs) as Hsub.
  apply (search_joined false F _ _ HF) in Hs as (gaps & Hlen & Hgaps & Hgroup).
  destruct (interleave_has_nonspace F gaps) as (c & Hc & Hnot); [| assumption..|].
  - unfold F. rewrite length_rev, length_map. now apply split_occurrence with span unk.
  - rewrite <- Hgroup in Hc.
    apply all_space_substring in Hsub; [|now apply all_space_rev].
    unfold all_space in Hsub. rewrite List.Forall_forall in Hsub.
    apply Hsub in Hc. congruence.
Qed.

Lemma blank_text_returns_span_witness :
  fix_unk_from_text (py "Tar<unk> As<unk>") (py "   ") default_unk None
  = Ok (py "Tar<unk> As<unk>").
Proof.
  apply (blank_text_returns_span (py "Tar<unk> As<unk>") (py "   ") default_unk
           [py "Tar"; py " As"; []]).
  - vm_compute. reflexivity.
  - repeat constructor.
  - repeat constructor.
Defined.

Lemma lstrip_keeps (c : N) (u : list N) :
  In c u -> Py.isspace c = false -> In c (Py.lstrip u).
Proof.
  intros Hin Hc. induction u as [|a u IH]; [contradiction|].
  simpl. destruct (Py.isspace a) eqn:Ea; [|exact Hin].
  destruct Hin as [->|Hin]; [congruence|auto].
Qed.

Lemma strip_keeps (c : N) (u : list N) :
  In c u -> Py.isspace c = false -> In c (Py.strip u).
Proof.
  intros Hin Hc. unfold Py.strip, Py.rstrip.
  apply in_rev. rewrite rev_involutive. apply lstrip_keeps; [|exact Hc].
  apply -> in_rev. now apply lstrip_keeps.
Qed.

(** X14. On the tokenizer-assisted path a result that differs from the
    span comes from the candidate region only: it is a run of characters
    of [text[o0[0]:o1[1]]], trimmed, where [o0] and [o1] are the offsets
    of the two token positions [match_sublist] returned. *)
Theorem tokenizer_result_within_region (span text unk : list N) (t : tokenizer_capability)
    (a b : Z) (o0 o1 : Z * Z) (r : list N) :
  match_sublist (encode t text).1 span (id2token_of t) = Ok (Some [a; b]) ->
  Py.getitem (encode t text).2 a = Ok o0 ->
  Py.getitem (encode t text).2 b = Ok o1 ->
  fix_unk_from_text span text unk (Some t) = Ok r ->
  r <> span ->
  exists u, substring u (Py.slice text o0.1 o1.2) /\ r = Py.strip u.
Proof.
  simpl. unfold fix_unk_from_text_with_tokenizer.
  change (fold_left _ (vocab t) ∅) with (id2token_of t).
  destruct (encode t text) as [tokenized_text offset_mapping]. cbn [fst snd].
  intros -> Ha Hb. cbn [bind]. rewrite getitem_first. cbn [bind]. rewrite Ha. cbn [bind].
  change [a; b] with ([a] ++ [b]). rewrite getitem_last. cbn [bind]. rewrite Hb. cbn [bind].
  intros H Hne. bind_cases H.
  match type of H with match ?x with _ => _ end = _ => destruct x as [m|] end;
    [|congruence].
  injection H as <-. exists (Re.group m). split; [|reflexivity].
  eapply search_group_substring; eauto.
Qed.

Lemma tokenizer_result_within_region_witness :
  exists u, substring u (Py.slice (py "a b") (1%Z, 2%Z).1 (2%Z, 3%Z).2)
            /\ py "b" = Py.strip u.
Proof.
  apply (tokenizer_result_within_region (py " b") (py "a b") default_unk
           char_tokenizer 1%Z 2%Z (1%Z, 2%Z) (2%Z, 3%Z) (py "b")).
  - vm_compute. reflexivity.
  - vm_compute. reflexivity.
  - vm_compute. reflexivity.
  - vm_compute. reflexivity.
  - vm_compute. discriminate.
Defined.

(** X15. Without a tokenizer, and for a span whose fragments hold none of
    the characters that [clean_wildcard] leaves unescaped, a result that
    differs from the span is never empty: it holds at least one character that is
    not whitespace, the one the wildcard stands for. *)
Theorem recovered_span_not_empty (span text unk : list N) (frags : list (list N))
    (r : list N) :
  Py.split span unk = Ok frags ->
  Forall plain frags ->
  fix_unk_from_text span text unk None = Ok r ->
  r <> span ->
  exists c, In c r /\ Py.isspace c = false.
Proof.
  intros Hsplit Hplain H Hne. simpl in H.
  rewrite (plain_span_forward_irrelevant _ _ _ _ Hsplit Hplain), reverse_only_eq in H.
  destruct (Py.contains unk span) eqn:Hin; cbn [negb] in H; [|congruence].
  rewrite (reverse_pattern_eq _ _ _ Hsplit) in H. cbn [bind] in H.
  destruct (Re.search _ (rev text)) as [[m|]| |] eqn:Es; cbn [bind] in H;
    try discriminate; [|congruence].
  injection H as <-.
  set (F := rev (map (fun f => rev (Py.strip f)) frags)) in *.
  assert (HF : Forall plain F).
  { apply List.Forall_rev, List.Forall_map.
    eapply List.Forall_impl; [|exact Hplain]. intros f Hf. now apply plain_rev, plain_strip. }
  apply (search_joined false F _ _ HF) in Es as (gaps & Hlen & Hgaps & Hgroup).
  destruct (interleave_has_nonspace F gaps) as (c & Hc & Hnot); [|assumption..|].
  - unfold F. rewrite length_rev, length_map. now apply split_occurrence with span unk.
  - exists c. split; [|exact Hnot]. apply strip_keeps; [|exact Hnot].
    rewrite Hgroup. now apply -> in_rev.
Qed.

Lemma recovered_span_not_empty_witness :
  exists c, In c (py "Tarō Asō") /\ Py.isspace c = false.
Proof.
  apply (recovered_span_not_empty (py "Tar<unk> As<unk>") (py "The leader of Japan is Tarō Asō .")
           default_unk [py "Tar"; py " As"; []] (py "Tarō Asō")).
  - vm_compute. reflexivity.
  - repeat constructor.
  - vm_compute. reflexivity.
  - vm_compute. discriminate.
Defined.
